(** * Capture Curator dashboard: ranking engine and presentation shell

    A shallow embedding of the photo-curation dashboard
    ([src/dashboard/src/components/dashboard-client.tsx]) and of the
    ranking engine it calls ([buildPhotoRankings] of [@/lib/scoring]).

    Numbers.  JavaScript numbers are IEEE-754 binary64.  Where a
    property depends on the value the component computes (the
    normalized weights, the average-alignment badge) the code is
    embedded over Rocq's primitive floats, which are binary64 with the
    same rounding.  The ranking engine, known only from the spec, and
    the range and ordering facts that rounding cannot change are stated
    over exact rationals ([Q], compared with [==]).
    Strings are Stdlib strings, read as UTF-8 text; sets of ids are
    stdpp [gset string]; arrays are lists. *)

From Stdlib Require Import QArith Qminmax Qround Lqa Lia List String Ascii.
From Stdlib Require Import Sorting Permutation.
From Stdlib Require Import Floats Uint63.
From stdpp Require Import gmap strings.
Import ListNotations.

Local Open Scope Q_scope.

(* ================================================================== *)
(** * Data model *)
(* ================================================================== *)

(** [photo.metrics]: three scalar scores. *)
Record Metrics := {
  sharpness : Q;
  emotion : Q;
  clientRelevance : Q
}.

(** [Photo], with the fields the dashboard and the photo card read. *)
Record Photo := {
  id : string;
  title : string;
  url : string;
  thumbnailUrl : string;
  shotType : string;
  mood : string;
  location : string;
  tags : list string;
  clientNotes : list string;
  faces : nat;
  capturedAt : string;
  metrics : Metrics
}.

(** [ScoringWeights], used both for the raw slider values and for the
    normalized triple. *)
Record ScoringWeights := {
  technical : Q;
  storytelling : Q;
  clientAlignment : Q
}.

(** [ClientProfile]; the three preference fields are arrays in the code. *)
Record ClientProfile := {
  preferredMoods : list string;
  requiredShots : list string;
  highlightTags : list string;
  minimumFaces : nat
}.

(** An element of the ranking output: [{ photo, score }]. *)
Record RankedEntry := {
  photo : Photo;
  score : Q
}.

Definition defaultProfile : ClientProfile := {|
  preferredMoods := ["Joyful"; "Romantic"]%string;
  requiredShots := ["Portrait"; "Candid"]%string;
  highlightTags := ["storytelling"; "candids"; "laughs"]%string;
  minimumFaces := 1
|}.

Definition defaultWeights : ScoringWeights := {|
  technical := 40;
  storytelling := 35;
  clientAlignment := 25
|}.

(* ================================================================== *)
(** * String and array helpers (JavaScript built-ins) *)
(* ================================================================== *)

(** [Array.prototype.includes] on an array of strings. *)
Definition includes (l : list string) (x : string) : bool :=
  existsb (String.eqb x) l.

(** [String.prototype.toLowerCase].  A string is read as UTF-8 text, one
    [ascii] per byte; the letters A to Z are mapped to a to z and every
    other byte is kept, so text outside the ASCII letters is left in the
    case it has. *)
Definition lowerAscii (c : ascii) : ascii :=
  let n := nat_of_ascii c in
  if (65 <=? n)%nat && (n <=? 90)%nat then ascii_of_nat (n + 32) else c.

Fixpoint toLowerCase (s : string) : string :=
  match s with
  | EmptyString => EmptyString
  | String c s' => String (lowerAscii c) (toLowerCase s')
  end.

(** The string with the given bytes. *)
Definition bytes (l : list nat) : string :=
  fold_right (fun n s => String (ascii_of_nat n) s) EmptyString l.

(** The code points [String.prototype.trim] removes (ECMAScript WhiteSpace
    and LineTerminator), each as its UTF-8 bytes: U+0009 to U+000D, U+0020,
    U+00A0, U+1680, U+2000 to U+200A, U+2028, U+2029, U+202F, U+205F,
    U+3000 and U+FEFF. *)
Definition whiteSpaceCodes : list (list nat) :=
  [ [9]; [10]; [11]; [12]; [13]; [32];
    [194; 160];
    [225; 154; 128];
    [226; 128; 128]; [226; 128; 129]; [226; 128; 130]; [226; 128; 131];
    [226; 128; 132]; [226; 128; 133]; [226; 128; 134]; [226; 128; 135];
    [226; 128; 136]; [226; 128; 137]; [226; 128; 138];
    [226; 128; 168]; [226; 128; 169];
    [226; 128; 175];
    [226; 129; 159];
    [227; 128; 128];
    [239; 187; 191] ]%nat.

Definition whiteSpaces : list string := map bytes whiteSpaceCodes.

(** [stripPrefix pre s] is the rest of [s] after [pre], when [s] starts
    with [pre]. *)
Fixpoint stripPrefix (pre s : string) : option string :=
  match pre, s with
  | EmptyString, _ => Some s
  | String a pre', String b s' =>
      if Ascii.eqb a b then stripPrefix pre' s' else None
  | String _ _, EmptyString => None
  end.

(** The rest of [s] after one leading white-space code point, if any. *)
Definition dropWhite (s : string) : option string :=
  fold_right (fun w found =>
                match stripPrefix w s with
                | Some rest => Some rest
                | None => found
                end) None whiteSpaces.

(** Leading white space removed; every removal shortens the string, so
    its length is fuel enough. *)
Fixpoint trimStartFuel (fuel : nat) (s : string) : string :=
  match fuel with
  | O => s
  | S fuel' =>
      match dropWhite s with
      | Some rest => trimStartFuel fuel' rest
      | None => s
      end
  end.

Definition trimStart (s : string) : string := trimStartFuel (String.length s) s.

(** Trailing white space removed: the string is cut at the first position
    from which only white space follows. *)
Fixpoint trimEnd (s : string) : string :=
  match s with
  | EmptyString => EmptyString
  | String c s' =>
      match trimStart s with
      | EmptyString => EmptyString
      | _ => String c (trimEnd s')
      end
  end.

Definition trim (s : string) : string := trimEnd (trimStart s).

(** Bytes that are no ASCII letter; lower-casing neither produces nor
    changes them. *)
Definition noLetter (c : ascii) : bool :=
  let n := nat_of_ascii c in
  negb (((65 <=? n)%nat && (n <=? 90)%nat) || ((97 <=? n)%nat && (n <=? 122)%nat)).

Fixpoint noLetters (s : string) : bool :=
  match s with
  | EmptyString => true
  | String c s' => noLetter c && noLetters s'
  end.

(** [String.prototype.includes]: [sub] occurs somewhere in [s]. *)
Fixpoint strIncludes (s sub : string) : bool :=
  String.prefix sub s ||
  match s with
  | EmptyString => false
  | String _ s' => strIncludes s' sub
  end.

(** Truthiness of a string: only the empty string is falsy. *)
Definition truthy (s : string) : bool :=
  match s with EmptyString => false | _ => true end.

(** [Array.from(new Set(l))]: first occurrences, in insertion order. *)
Fixpoint dedupe (l : list string) : list string :=
  match l with
  | [] => []
  | x :: l' => x :: List.filter (fun y => negb (String.eqb y x)) (dedupe l')
  end.

(** [Number.prototype.toFixed(0)] as an integer: the nearest integer,
    the half-way case rounded away from zero. *)
Definition toFixed0 (x : Q) : Z :=
  if Qle_bool 0 x then Qfloor (x + (1 # 2)) else (- Qfloor ((- x) + (1 # 2)))%Z.

(* ================================================================== *)
(** * Presentation shell ([DashboardClient]) *)
(* ================================================================== *)

(** The [useState] cells of the component. *)
Record DashboardState := {
  weights : ScoringWeights;
  profile : ClientProfile;
  activeShotTypes : list string;
  activeMoods : list string;
  activeLocations : list string;
  tagQuery : string;
  showSelectedOnly : bool;
  selectedIds : gset string
}.

Definition initialState : DashboardState := {|
  weights := defaultWeights;
  profile := defaultProfile;
  activeShotTypes := [];
  activeMoods := [];
  activeLocations := [];
  tagQuery := EmptyString;
  showSelectedOnly := false;
  selectedIds := ∅
|}.

(** [normalizedWeights]: each raw weight divided by the total. *)
Definition normalizedWeights (w : ScoringWeights) : ScoringWeights :=
  let total := technical w + storytelling w + clientAlignment w in
  {| technical := technical w / total;
     storytelling := storytelling w / total;
     clientAlignment := clientAlignment w / total |}.

(** The predicate of [rankedPhotos.filter(...)] in [filtered]. *)
Definition keeps (st : DashboardState) (p : Photo) : bool :=
  let query := toLowerCase (trim (tagQuery st)) in
  if showSelectedOnly st && negb (bool_decide (id p ∈ selectedIds st)) then false
  else if (0 <? length (activeShotTypes st))%nat
          && negb (includes (activeShotTypes st) (shotType p)) then false
  else if (0 <? length (activeMoods st))%nat
          && negb (includes (activeMoods st) (mood p)) then false
  else if (0 <? length (activeLocations st))%nat
          && negb (includes (activeLocations st) (location p)) then false
  else if truthy query then
    let matchesTag :=
      existsb (fun tag => strIncludes (toLowerCase tag) query) (tags p) in
    let matchesNotes :=
      existsb (fun note => strIncludes (toLowerCase note) query) (clientNotes p) in
    if negb matchesTag && negb matchesNotes
       && negb (strIncludes (toLowerCase (title p)) query)
    then false else true
  else true.

Definition filtered (st : DashboardState) (rankedPhotos : list RankedEntry)
  : list RankedEntry :=
  List.filter (fun e => keeps st (photo e)) rankedPhotos.

(** [filtered.slice(0, 12)]. *)
Definition topCandidates (st : DashboardState) (rankedPhotos : list RankedEntry)
  : list RankedEntry :=
  firstn 12 (filtered st rankedPhotos).

(** [topCandidates[0]]; [None] stands for [undefined]. *)
Definition hero (st : DashboardState) (rankedPhotos : list RankedEntry)
  : option RankedEntry :=
  nth_error (topCandidates st rankedPhotos) 0.

(** [shortlist]: the catalog photos whose id is selected. *)
Definition shortlist (photos : list Photo) (sel : gset string) : list Photo :=
  List.filter (fun p => bool_decide (id p ∈ sel)) photos.

(** [toggleSelection]: the updater passed to [setSelectedIds]. *)
Definition toggleSelection (i : string) (prev : gset string) : gset string :=
  if bool_decide (i ∈ prev) then prev ∖ {[ i ]} else prev ∪ {[ i ]}.

Definition clearSelections : gset string := ∅.

Inductive WeightKey := KTechnical | KStorytelling | KClientAlignment.

Definition adjustWeight (key : WeightKey) (value : Q) (prev : ScoringWeights)
  : ScoringWeights :=
  match key with
  | KTechnical =>
      {| technical := value; storytelling := storytelling prev;
         clientAlignment := clientAlignment prev |}
  | KStorytelling =>
      {| technical := technical prev; storytelling := value;
         clientAlignment := clientAlignment prev |}
  | KClientAlignment =>
      {| technical := technical prev; storytelling := storytelling prev;
         clientAlignment := value |}
  end.

Inductive ProfileKey :=
  KPreferredMoods | KRequiredShots | KHighlightTags | KMinimumFaces.

(** The set round trip of [toggleProfileField]: [new Set(current)], then
    delete or add, then [Array.from]. *)
Definition toggleInSet (value : string) (current : list string) : list string :=
  let set := dedupe current in
  if includes set value
  then List.filter (fun y => negb (String.eqb y value)) set
  else set ++ [value].

Definition toggleProfileField (key : ProfileKey) (value : string)
  (prev : ClientProfile) : ClientProfile :=
  match key with
  | KPreferredMoods =>
      {| preferredMoods := toggleInSet value (preferredMoods prev);
         requiredShots := requiredShots prev;
         highlightTags := highlightTags prev;
         minimumFaces := minimumFaces prev |}
  | KRequiredShots =>
      {| preferredMoods := preferredMoods prev;
         requiredShots := toggleInSet value (requiredShots prev);
         highlightTags := highlightTags prev;
         minimumFaces := minimumFaces prev |}
  | KHighlightTags =>
      {| preferredMoods := preferredMoods prev;
         requiredShots := requiredShots prev;
         highlightTags := toggleInSet value (highlightTags prev);
         minimumFaces := minimumFaces prev |}
  | KMinimumFaces => prev  (* not an array: returned unchanged *)
  end.

Definition setMinimumFaces (value : nat) (prev : ClientProfile) : ClientProfile :=
  {| preferredMoods := preferredMoods prev;
     requiredShots := requiredShots prev;
     highlightTags := highlightTags prev;
     minimumFaces := value |}.

(** The filter chips: remove the value when present, append it otherwise. *)
Definition toggleChip (value : string) (prev : list string) : list string :=
  if includes prev value
  then List.filter (fun item => negb (String.eqb item value)) prev
  else prev ++ [value].

(** The user events wired in the component. *)
Inductive Action :=
| AdjustWeight (key : WeightKey) (value : Q)
| ToggleProfileField (key : ProfileKey) (value : string)
| SetMinimumFaces (value : nat)
| ToggleShotType (value : string)
| ToggleMood (value : string)
| ToggleLocation (value : string)
| SetTagQuery (value : string)
| SetShowSelectedOnly (value : bool)
| ToggleSelection (i : string)
| ClearSelections.

Definition step (a : Action) (st : DashboardState) : DashboardState :=
  match a with
  | AdjustWeight key value =>
      {| weights := adjustWeight key value (weights st); profile := profile st;
         activeShotTypes := activeShotTypes st; activeMoods := activeMoods st;
         activeLocations := activeLocations st; tagQuery := tagQuery st;
         showSelectedOnly := showSelectedOnly st; selectedIds := selectedIds st |}
  | ToggleProfileField key value =>
      {| weights := weights st;
         profile := toggleProfileField key value (profile st);
         activeShotTypes := activeShotTypes st; activeMoods := activeMoods st;
         activeLocations := activeLocations st; tagQuery := tagQuery st;
         showSelectedOnly := showSelectedOnly st; selectedIds := selectedIds st |}
  | SetMinimumFaces value =>
      {| weights := weights st; profile := setMinimumFaces value (profile st);
         activeShotTypes := activeShotTypes st; activeMoods := activeMoods st;
         activeLocations := activeLocations st; tagQuery := tagQuery st;
         showSelectedOnly := showSelectedOnly st; selectedIds := selectedIds st |}
  | ToggleShotType value =>
      {| weights := weights st; profile := profile st;
         activeShotTypes := toggleChip value (activeShotTypes st);
         activeMoods := activeMoods st;
         activeLocations := activeLocations st; tagQuery := tagQuery st;
         showSelectedOnly := showSelectedOnly st; selectedIds := selectedIds st |}
  | ToggleMood value =>
      {| weights := weights st; profile := profile st;
         activeShotTypes := activeShotTypes st;
         activeMoods := toggleChip value (activeMoods st);
         activeLocations := activeLocations st; tagQuery := tagQuery st;
         showSelectedOnly := showSelectedOnly st; selectedIds := selectedIds st |}
  | ToggleLocation value =>
      {| weights := weights st; profile := profile st;
         activeShotTypes := activeShotTypes st; activeMoods := activeMoods st;
         activeLocations := toggleChip value (activeLocations st);
         tagQuery := tagQuery st;
         showSelectedOnly := showSelectedOnly st; selectedIds := selectedIds st |}
  | SetTagQuery value =>
      {| weights := weights st; profile := profile st;
         activeShotTypes := activeShotTypes st; activeMoods := activeMoods st;
         activeLocations := activeLocations st; tagQuery := value;
         showSelectedOnly := showSelectedOnly st; selectedIds := selectedIds st |}
  | SetShowSelectedOnly value =>
      {| weights := weights st; profile := profile st;
         activeShotTypes := activeShotTypes st; activeMoods := activeMoods st;
         activeLocations := activeLocations st; tagQuery := tagQuery st;
         showSelectedOnly := value; selectedIds := selectedIds st |}
  | ToggleSelection i =>
      {| weights := weights st; profile := profile st;
         activeShotTypes := activeShotTypes st; activeMoods := activeMoods st;
         activeLocations := activeLocations st; tagQuery := tagQuery st;
         showSelectedOnly := showSelectedOnly st;
         selectedIds := toggleSelection i (selectedIds st) |}
  | ClearSelections =>
      {| weights := weights st; profile := profile st;
         activeShotTypes := activeShotTypes st; activeMoods := activeMoods st;
         activeLocations := activeLocations st; tagQuery := tagQuery st;
         showSelectedOnly := showSelectedOnly st;
         selectedIds := clearSelections |}
  end.

(** The events that act on the shortlist itself; every other event
    changes an input of the ranking or of the filters. *)
Definition editsShortlist (a : Action) : bool :=
  match a with
  | ToggleSelection _ | ClearSelections => true
  | _ => false
  end.

Fixpoint run (acts : list Action) (st : DashboardState) : DashboardState :=
  match acts with
  | [] => st
  | a :: rest => run rest (step a st)
  end.

(** The sliders are [<input type="range" min={15} max={70}>]: the
    values they emit lie between the two. *)
Definition sliderEvent (a : Action) : Prop :=
  match a with
  | AdjustWeight _ value => 15 <= value <= 70
  | _ => True
  end.

(** ** Shortlist summary *)

(** [rankedPhotos.find((item) => item.photo.id === photo.id)]. *)
Definition findEntry (rankedPhotos : list RankedEntry) (p : Photo)
  : option RankedEntry :=
  List.find (fun item => String.eqb (id (photo item)) (id p)) rankedPhotos.

(** [entry?.score ?? d]. *)
Definition scoreOr (d : Q) (entry : option RankedEntry) : Q :=
  match entry with
  | Some e => score e
  | None => d
  end.

(** The [reduce] of the average-alignment badge, started at 0. *)
Definition alignmentSum (rankedPhotos : list RankedEntry) (l : list Photo) : Q :=
  fold_left (fun acc p => acc + scoreOr 0 (findEntry rankedPhotos p)) l 0.

(** The number under [toFixed(0)] in the badge; the branch for an empty
    shortlist prints the literal 0. *)
Definition avgAlignmentPercent (photos : list Photo)
  (rankedPhotos : list RankedEntry) (sel : gset string) : Q :=
  let sl := shortlist photos sel in
  match length sl with
  | O => 0
  | _ => alignmentSum rankedPhotos sl / inject_Z (Z.of_nat (length sl)) * 100
  end.

Definition avgAlignmentShown (photos : list Photo)
  (rankedPhotos : list RankedEntry) (sel : gset string) : Z :=
  toFixed0 (avgAlignmentPercent photos rankedPhotos sel).

(** The score handed to each shortlist card. *)
Definition shortlistCardScore (rankedPhotos : list RankedEntry) (p : Photo) : Q :=
  scoreOr (1 # 2) (findEntry rankedPhotos p).

Definition shortlistCards (photos : list Photo)
  (rankedPhotos : list RankedEntry) (sel : gset string) : list (Photo * Q) :=
  map (fun p => (p, shortlistCardScore rankedPhotos p))
      (firstn 9 (shortlist photos sel)).

(* ================================================================== *)
(** * Ranking engine ([buildPhotoRankings]) *)
(* ================================================================== *)

(** Modelled from the spec: "clamped to [0,1]", the clamp of the missing
    [@/lib/scoring] module. *)
Definition clamp01 (x : Q) : Q := Qmin 1 (Qmax 0 x).

(** Modelled from the spec: the four constants of the composite
    sub-score, which live in the missing [@/lib/scoring] module.  The
    spec names a mood bonus ("e.g. +0.15"), a damping factor for a
    missed required shot type ("such as 0.6"), a tag-overlap bonus
    "proportional to" the matched fraction, and a damping factor for a
    missed minimum face count; it fixes none of them, so they are
    parameters of the model. *)
Record ScoringParams := {
  moodBonus : Q;
  shotDamping : Q;
  tagScale : Q;
  faceDamping : Q
}.


(** The spec's example values, with the two it leaves open set to the
    same bonus and damping. *)
Definition sampleParams : ScoringParams := {|
  moodBonus := 15 # 100;
  shotDamping := 6 # 10;
  tagScale := 15 # 100;
  faceDamping := 6 # 10
|}.

Section Engine.

Variable prm : ScoringParams.

(** Modelled from the spec: the fraction of [profile.highlightTags]
    present in [photo.tags]; an empty preference set contributes
    nothing. *)
Definition tagOverlap (prof : ClientProfile) (p : Photo) : Q :=
  match highlightTags prof with
  | [] => 0
  | hs =>
      inject_Z (Z.of_nat (length (List.filter (includes (tags p)) hs)))
      / inject_Z (Z.of_nat (length hs))
  end.

(** Modelled from the spec: the composite sub-score before the face
    penalty: base relevance, mood bonus, required-shot damping, tag
    bonus, in the order of section 4.1 step 3. *)
Definition preFaceComposite (prof : ClientProfile) (p : Photo) : Q :=
  let base := clientRelevance (metrics p) in
  let withMood :=
    if includes (preferredMoods prof) (mood p)
    then base + moodBonus prm else base in
  let withShot :=
    if (0 <? length (requiredShots prof))%nat
       && negb (includes (requiredShots prof) (shotType p))
    then withMood * shotDamping prm else withMood in
  withShot + tagScale prm * tagOverlap prof p.

(** Modelled from the spec: the composite sub-score before clamping. *)
Definition rawComposite (prof : ClientProfile) (p : Photo) : Q :=
  let c := preFaceComposite prof p in
  if (faces p <? minimumFaces prof)%nat then c * faceDamping prm else c.

(** Modelled from the spec: "composite sub-score is clamped to [0,1]
    after bonuses/penalties". *)
Definition composite (prof : ClientProfile) (p : Photo) : Q :=
  clamp01 (rawComposite prof p).

(** Modelled from the spec: the sum of the three weighted components,
    before the final clamp. *)
Definition weightedSum (w : ScoringWeights) (prof : ClientProfile) (p : Photo) : Q :=
  technical w * sharpness (metrics p)
  + storytelling w * emotion (metrics p)
  + clientAlignment w * composite prof p.

(** Modelled from the spec: "Final score = sum of the three weighted
    components, clamped to [0,1]". *)
Definition scorePhoto (w : ScoringWeights) (prof : ClientProfile) (p : Photo) : Q :=
  clamp01 (weightedSum w prof p).

(** Modelled from the spec: the output pairs each photo with its score. *)
Definition rankEntry (w : ScoringWeights) (prof : ClientProfile) (p : Photo)
  : RankedEntry :=
  {| photo := p; score := scorePhoto w prof p |}.

End Engine.

(** Modelled from the spec: a stable sort, descending by score.  An
    entry is put in front of the first entry whose score is not
    greater, so an earlier entry stays ahead of a later one it ties
    with. *)
Fixpoint insertByScore (e : RankedEntry) (l : list RankedEntry) : list RankedEntry :=
  match l with
  | [] => [e]
  | x :: l' =>
      if Qle_bool (score x) (score e) then e :: x :: l'
      else x :: insertByScore e l'
  end.

(** Modelled from the spec: the whole sort, entries inserted from the
    last to the first. *)
Definition sortByScoreDesc (l : list RankedEntry) : list RankedEntry :=
  fold_right insertByScore [] l.

(** Modelled from the spec: the missing [buildPhotoRankings] of
    [@/lib/scoring], as section 4.1 gives it: every photo is scored,
    none is filtered out, and the entries are sorted by descending
    score, ties in catalog order. *)
Definition buildPhotoRankings (prm : ScoringParams) (photos : list Photo)
  (w : ScoringWeights) (prof : ClientProfile) : list RankedEntry :=
  sortByScoreDesc (map (rankEntry prm w prof) photos).

(** [rankedPhotos] of the component: the engine on the normalized
    weights and the profile of the current state. *)
Definition rankedPhotos (prm : ScoringParams) (photos : list Photo)
  (st : DashboardState) : list RankedEntry :=
  buildPhotoRankings prm photos (normalizedWeights (weights st)) (profile st).

(** ** Vocabulary of the properties *)

(** Descending order on entries. *)
Definition scoreGe (a b : RankedEntry) : Prop := score b <= score a.

(** Weights that are non-negative and sum to one. *)
Definition Normalized (w : ScoringWeights) : Prop :=
  0 <= technical w /\ 0 <= storytelling w /\ 0 <= clientAlignment w /\
  technical w + storytelling w + clientAlignment w == 1.

(** The three metrics of a photo lie in the unit interval. *)
Definition MetricsInRange (p : Photo) : Prop :=
  0 <= sharpness (metrics p) <= 1 /\
  0 <= emotion (metrics p) <= 1 /\
  0 <= clientRelevance (metrics p) <= 1.

(** Raw slider values: each in [15, 70]. *)
Definition SliderRange (w : ScoringWeights) : Prop :=
  15 <= technical w <= 70 /\
  15 <= storytelling w <= 70 /\
  15 <= clientAlignment w <= 70.

(** Two photos that agree on every attribute the scoring reads, the
    face count apart: shot type, mood, tags and metrics.  Identifier,
    title, URLs, location, notes and capture time play no part in the
    score and are left free, so the two can be distinct photos of one
    catalog. *)
Definition sameExceptFaces (p q : Photo) : Prop :=
  shotType p = shotType q /\ mood p = mood q /\ tags p = tags q /\
  metrics p = metrics q.

(** Two photos that differ in nothing but their identifier and their
    face count. *)
Definition twinsExceptFaces (p q : Photo) : Prop :=
  title p = title q /\ url p = url q /\
  thumbnailUrl p = thumbnailUrl q /\ shotType p = shotType q /\
  mood p = mood q /\ location p = location q /\ tags p = tags q /\
  clientNotes p = clientNotes q /\ capturedAt p = capturedAt q /\
  metrics p = metrics q.


(** The clientAlignment weight moved to [c'], the other two scaled by
    a common factor so that the triple still sums to one. *)
Definition reweight (w : ScoringWeights) (c' : Q) : ScoringWeights :=
  let k := (1 - c') / (1 - clientAlignment w) in
  {| technical := technical w * k;
     storytelling := storytelling w * k;
     clientAlignment := c' |}.

Definition sumQ (l : list Q) : Q := fold_right Qplus 0 l.









(* ================================================================== *)
(** * Badges of the dashboard and the photo card *)
(* ================================================================== *)

(** [a > b] on numbers. *)
Definition gtb (a b : Q) : bool := negb (Qle_bool a b).

(** [percentile]: [Math.round(value * 100)]; [Math.round] takes the
    nearest integer and rounds the half-way case up. *)
Definition percentile (value : Q) : Z := Qfloor (value * 100 + (1 # 2)).

(** [scoreToLabel] of the photo card. *)
Definition scoreToLabel (s : Q) : string :=
  if gtb s (86 # 100) then "Hero candidate"
  else if gtb s (72 # 100) then "Strong pick"
  else if gtb s (6 # 10) then "Consider"
  else "Hold".

(** [priority={score > 0.9}] of the card image. *)
Definition cardPriority (s : Q) : bool := gtb s (9 # 10).

(** [(score * 100).toFixed(0)], the percentage on the card. *)
Definition cardPercent (s : Q) : Z := toFixed0 (s * 100).

(** "Hero confidence": [hero ? (hero.score * 100).toFixed(0) : 0]. *)
Definition heroConfidence (st : DashboardState) (ranked : list RankedEntry) : Z :=
  match hero st ranked with
  | Some h => toFixed0 (score h * 100)
  | None => 0%Z
  end.

(** "Coverage": [((filtered.length / photos.length) * 100).toFixed(0)].
    On an empty catalog the quotient is 0/0 or n/0, which is not a
    finite number; [None] stands for that. *)
Definition coverageShown (photos : list Photo) (st : DashboardState)
  (ranked : list RankedEntry) : option Z :=
  match length photos with
  | O => None
  | n => Some (toFixed0 (inject_Z (Z.of_nat (length (filtered st ranked)))
                         / inject_Z (Z.of_nat n) * 100))
  end.

(** "+N more shortlisted frames", rendered when [shortlist.length > 9]. *)
Definition shortlistOverflow (photos : list Photo) (sel : gset string) : option nat :=
  let n := length (shortlist photos sel) in
  if (9 <? n)%nat then Some (n - 9)%nat else None.

(** ** Vocabulary of the shell properties *)

(** The tiers of the card labels, lowest first. *)
Definition labelTier (l : string) : nat :=
  if String.eqb l "Hero candidate" then 3
  else if String.eqb l "Strong pick" then 2
  else if String.eqb l "Consider" then 1
  else 0.

(** The ids of the catalog, as a set. *)
Definition catalogIds (photos : list Photo) : gset string :=
  list_to_set (map id photos).

(** The toggle events that come from a card of the catalog. *)
Definition cardEvent (photos : list Photo) (a : Action) : Prop :=
  match a with
  | ToggleSelection i => i ∈ catalogIds photos
  | _ => True
  end.

(** A state with one of its cells replaced. *)
Definition withQuery (q : string) (st : DashboardState) : DashboardState :=
  step (SetTagQuery q) st.

Definition withShowSelectedOnly (b : bool) (st : DashboardState) : DashboardState :=
  step (SetShowSelectedOnly b) st.

(** No chip is active and the shortlist-only box is unchecked. *)
Definition chipsOff (st : DashboardState) : Prop :=
  activeShotTypes st = [] /\ activeMoods st = [] /\ activeLocations st = [] /\
  showSelectedOnly st = false.

(** [prev[key]] for the array-valued keys of the profile. *)
Definition profileField (key : ProfileKey) (prof : ClientProfile) : list string :=
  match key with
  | KPreferredMoods => preferredMoods prof
  | KRequiredShots => requiredShots prof
  | KHighlightTags => highlightTags prof
  | KMinimumFaces => []
  end.

(** [weights[key]]. *)
Definition weightOf (key : WeightKey) (w : ScoringWeights) : Q :=
  match key with
  | KTechnical => technical w
  | KStorytelling => storytelling w
  | KClientAlignment => clientAlignment w
  end.

(** The texts of a photo that the search box looks into. *)
Definition searchableTexts (p : Photo) : list string :=
  tags p ++ clientNotes p ++ [title p].

(** The four tests of the filter that do not read the search box. *)
Definition passesChips (st : DashboardState) (p : Photo) : bool :=
  (negb (showSelectedOnly st) || bool_decide (id p ∈ selectedIds st))
  && (negb (0 <? length (activeShotTypes st))%nat
      || includes (activeShotTypes st) (shotType p))
  && (negb (0 <? length (activeMoods st))%nat
      || includes (activeMoods st) (mood p))
  && (negb (0 <? length (activeLocations st))%nat
      || includes (activeLocations st) (location p)).

(** The test of the filter on the search box: some searchable text of
    the photo, in lower case, contains the trimmed lower-case query. *)
Definition passesSearch (st : DashboardState) (p : Photo) : bool :=
  let query := toLowerCase (trim (tagQuery st)) in
  negb (truthy query)
  || existsb (fun text => strIncludes (toLowerCase text) query) (searchableTexts p).

(* ================================================================== *)
(** * The component's arithmetic in binary64 *)
(* ================================================================== *)

(** The raw and the normalized weights as the doubles they are. *)
Record Weights64 := {
  technical64 : float;
  storytelling64 : float;
  clientAlignment64 : float
}.

(** [Number(event.target.value)] of a range input with [step={1}]: the
    double of an integer. *)
Definition sliderValue (n : Z) : float := PrimFloat.of_uint63 (Uint63.of_Z n).

Definition sliderWeights (a b c : Z) : Weights64 :=
  {| technical64 := sliderValue a;
     storytelling64 := sliderValue b;
     clientAlignment64 := sliderValue c |}.

(** [w.technical + w.storytelling + w.clientAlignment], left to right. *)
Definition total64 (w : Weights64) : float :=
  (technical64 w + storytelling64 w + clientAlignment64 w)%float.

(** [normalizedWeights] as the component evaluates it. *)
Definition normalizedWeights64 (w : Weights64) : Weights64 :=
  let total := total64 w in
  {| technical64 := (technical64 w / total)%float;
     storytelling64 := (storytelling64 w / total)%float;
     clientAlignment64 := (clientAlignment64 w / total)%float |}.

(** The doubles next to 1: 1 - 2^-53 and 1 + 2^-52. *)
Definition belowOne : float := 0x1.fffffffffffffp-1%float.
Definition aboveOne : float := 0x1.0000000000001p+0%float.

(** 1 or one of its two neighbours. *)
Definition nearOne (x : float) : bool :=
  ((belowOne <=? x) && (x <=? aboveOne))%float.

(** Strictly between 0 and 1. *)
Definition insideUnit (x : float) : bool := ((0 <? x) && (x <? 1))%float.

(** What is checked of one slider state. *)
Definition sliderCheck (a b c : Z) : bool :=
  let w := sliderWeights a b c in
  let n := normalizedWeights64 w in
  (total64 w =? sliderValue (a + b + c))%float
  && (0 <? total64 w)%float
  && insideUnit (technical64 n)
  && insideUnit (storytelling64 n)
  && insideUnit (clientAlignment64 n)
  && nearOne (total64 n).

(** The positions of a slider: [min={15} max={70} step={1}]. *)
Definition sliderStops : list Z := map (fun i => (15 + Z.of_nat i)%Z) (seq 0 56).

(** The check on every triple of positions taken from a list. *)
Definition stopsCheck (l : list Z) : bool :=
  forallb (fun a => forallb (fun b => forallb (fun c => sliderCheck a b c) l) l) l.

(** A slider event that carries one of the slider's positions. *)
Definition stopEvent (a : Action) : Prop :=
  match a with
  | AdjustWeight _ value => exists n : Z, (15 <= n <= 70)%Z /\ value = inject_Z n
  | _ => True
  end.

(** Raw weights that are slider positions. *)
Definition AtStops (w : ScoringWeights) (a b c : Z) : Prop :=
  (15 <= a <= 70)%Z /\ (15 <= b <= 70)%Z /\ (15 <= c <= 70)%Z /\
  w = {| technical := inject_Z a; storytelling := inject_Z b;
         clientAlignment := inject_Z c |}.

(** The rational a finite double stands for; [None] for NaN and the
    infinities. *)
Definition exactValue (x : float) : option Q :=
  match Prim2SF x with
  | S754_zero _ => Some 0
  | S754_finite s m e =>
      let v := if (0 <=? e)%Z then inject_Z (Zpos m * 2 ^ e)
               else Zpos m # Pos.pow 2 (Z.to_pos (- e)) in
      Some (if s then - v else v)
  | _ => None
  end.

(** [x.toFixed(0)] of a double: the integer nearest to its exact value,
    the half-way case away from zero; [None] when it prints [NaN] or
    [Infinity]. *)
Definition toFixed0_64 (x : float) : option Z :=
  match exactValue x with
  | Some v => Some (toFixed0 v)
  | None => None
  end.

(** ** The shortlist summary in binary64 *)

(** An element of [rankedPhotos] with its score as a double. *)
Record Entry64 := {
  photo64 : Photo;
  score64 : float
}.

(** [rankedPhotos.find((item) => item.photo.id === photo.id)]. *)
Definition findEntry64 (ranked : list Entry64) (p : Photo) : option Entry64 :=
  List.find (fun item => String.eqb (id (photo64 item)) (id p)) ranked.

(** [entry?.score ?? d]. *)
Definition scoreOr64 (d : float) (entry : option Entry64) : float :=
  match entry with
  | Some e => score64 e
  | None => d
  end.

(** The [reduce] of the average-alignment badge, started at 0. *)
Definition alignmentSum64 (ranked : list Entry64) (l : list Photo) : float :=
  fold_left (fun acc p => (acc + scoreOr64 0 (findEntry64 ranked p))%float) l 0%float.

(** [l.length] as a double. *)
Definition lengthDouble {A : Type} (l : list A) : float :=
  PrimFloat.of_uint63 (Uint63.of_Z (Z.of_nat (length l))).

(** The average-alignment badge: [shortlist.length ? ((sum /
    shortlist.length) * 100).toFixed(0) : "0"]. *)
Definition avgAlignmentShown64 (photos : list Photo) (ranked : list Entry64)
  (sel : gset string) : option Z :=
  match shortlist photos sel with
  | [] => Some 0%Z
  | sl => toFixed0_64 (alignmentSum64 ranked sl / lengthDouble sl * 100)%float
  end.

(** The score handed to each shortlist card: [entry?.score ?? 0.5]. *)
Definition shortlistCardScore64 (ranked : list Entry64) (p : Photo) : float :=
  scoreOr64 0.5%float (findEntry64 ranked p).

(** The arithmetic mean of a list of doubles, summed left to right from
    0 as [reduce] does, and the badge it gives. *)
Definition sum64 (l : list float) : float :=
  fold_left (fun acc x => (acc + x)%float) l 0%float.

Definition mean64 (l : list float) : float := (sum64 l / lengthDouble l)%float.

Definition meanShown64 (l : list float) : option Z :=
  toFixed0_64 (mean64 l * 100)%float.

(** The same mean taken exactly: the doubles read as the rationals they
    stand for, summed and divided without rounding, and the badge that
    would give. *)
Definition exactSum (l : list float) : option Q :=
  fold_right (fun x acc =>
                match exactValue x, acc with
                | Some v, Some a => Some (v + a)
                | _, _ => None
                end) (Some 0) l.

Definition exactMeanShown (l : list float) : option Z :=
  match exactSum l with
  | Some s => Some (toFixed0 (s / inject_Z (Z.of_nat (length l)) * 100))
  | None => None
  end.

(* ================================================================== *)
(** * Sample catalogs *)
(* ================================================================== *)

(** A photo with the given id, metrics and face count; every other
    attribute is the same for all of them. *)
Definition frame (i : string) (sh em cr : Q) (nfaces : nat) : Photo := {|
  id := i;
  title := "Untitled";
  url := "/full.jpg";
  thumbnailUrl := "/thumb.jpg";
  shotType := "Detail";
  mood := "Calm";
  location := "Studio";
  tags := ["archive"]%string;
  clientNotes := [];
  faces := nfaces;
  capturedAt := "2024-05-01T10:00:00Z";
  metrics := {| sharpness := sh; emotion := em; clientRelevance := cr |}
|}.

(** A profile with empty preference sets and no face minimum: no bonus
    and no penalty applies. *)
Definition plainProfile : ClientProfile := {|
  preferredMoods := [];
  requiredShots := [];
  highlightTags := [];
  minimumFaces := 0
|}.


(** The three-photo example of the spec's section 8. *)
Definition sharpFrame : Photo := frame "sharp" (9 # 10) (2 # 10) (5 # 10) 2.
Definition warmFrame : Photo := frame "warm" (3 # 10) (9 # 10) (5 # 10) 2.
Definition evenFrame : Photo := frame "even" (6 # 10) (5 # 10) (5 # 10) 2.

Definition exampleCatalog : list Photo := [sharpFrame; warmFrame; evenFrame].

(** A search text of white space only: a no-break space (U+00A0), a
    space, a tab and a byte-order mark (U+FEFF). *)
Definition blankQuery : string := bytes [194; 160; 32; 9; 239; 187; 191]%nat.

Definition exampleWeights : ScoringWeights :=
  {| technical := 1 # 2; storytelling := 1 # 2; clientAlignment := 0 |}.















(** The example catalog ranked with its scores as doubles: the doubles
    nearest to 0.6, 0.55 and 0.55. *)
Definition exampleScore64 (p : Photo) : float :=
  if String.eqb (id p) "warm" then 0x1.3333333333333p-1%float
  else 0x1.199999999999ap-1%float.

Definition exampleRanked64 : list Entry64 :=
  map (fun p => {| photo64 := p; score64 := exampleScore64 p |})
      [warmFrame; sharpFrame; evenFrame].

(** Two different photos that carry the same id, ranked with scores 1
    and 0.5. *)
Definition dupA : Photo := frame "dup" 1 1 1 2.
Definition dupB : Photo := frame "dup" (1 # 2) (1 # 2) (1 # 2) 2.

Definition dupRanked64 : list Entry64 :=
  [ {| photo64 := dupA; score64 := 1%float |};
    {| photo64 := dupB; score64 := 0.5%float |} ].

(** A photo whose composite exceeds its sharpness and emotion. *)
Definition relevantFrame : Photo := frame "r" (2 # 10) (2 # 10) (9 # 10) 2.

(* ================================================================== *)
(** * Clamping *)
(* ================================================================== *)

(** Closed comparisons of rationals, by evaluation. *)
Ltac qcompute := vm_compute; first [reflexivity | discriminate].

Lemma clamp01_cases (x : Q) :
  (x <= 0 /\ clamp01 x == 0) \/
  (1 <= x /\ clamp01 x == 1) \/
  (0 < x < 1 /\ clamp01 x == x).
Proof.
  unfold clamp01.
  destruct (Q.max_spec 0 x) as [[Hlt Hmax] | [Hle Hmax]];
    destruct (Q.min_spec 1 (Qmax 0 x)) as [[Hlt' Hmin] | [Hle' Hmin]];
    rewrite Hmin; rewrite Hmax in *; lra.
Qed.

Lemma clamp01_range (x : Q) : 0 <= clamp01 x <= 1.
Proof. destruct (clamp01_cases x) as [[? H] | [[? H] | [? H]]]; rewrite H; lra. Qed.

Lemma clamp01_id (x : Q) : 0 <= x <= 1 -> clamp01 x == x.
Proof. intros Hx. destruct (clamp01_cases x) as [[? H] | [[? H] | [? H]]]; rewrite H; lra. Qed.

Lemma clamp01_mono (x y : Q) : x <= y -> clamp01 x <= clamp01 y.
Proof.
  intros Hxy.
  destruct (clamp01_cases x) as [[? Hx] | [[? Hx] | [? Hx]]];
    destruct (clamp01_cases y) as [[? Hy] | [[? Hy] | [? Hy]]];
    rewrite Hx, Hy; lra.
Qed.

#[global] Instance clamp01_proper : Proper (Qeq ==> Qeq) clamp01.
Proof.
  intros x y Hxy. apply Qle_antisym; apply clamp01_mono; rewrite Hxy; lra.
Qed.


(* ================================================================== *)
(** * The stable descending sort *)
(* ================================================================== *)

Section SortFacts.

Implicit Types (e x : RankedEntry) (l : list RankedEntry).

Lemma insertByScore_perm e l : Permutation (insertByScore e l) (e :: l).
Proof.
  induction l as [| x l IH]; simpl; [reflexivity |].
  destruct (Qle_bool (score x) (score e)); [reflexivity |].
  rewrite IH. apply perm_swap.
Qed.

Lemma sortByScoreDesc_perm l : Permutation (sortByScoreDesc l) l.
Proof.
  induction l as [| e l IH]; simpl; [constructor |].
  rewrite insertByScore_perm. now constructor.
Qed.

Lemma scoreGe_trans : Relation_Definitions.transitive _ scoreGe.
Proof. intros a b c Hab Hbc. unfold scoreGe in *. lra. Qed.

Lemma insertByScore_sorted e l :
  StronglySorted scoreGe l -> StronglySorted scoreGe (insertByScore e l).
Proof.
  induction 1 as [| x l Hs IH Hall]; simpl.
  - repeat constructor.
  - destruct (Qle_bool (score x) (score e)) eqn:Hcmp.
    + apply Qle_bool_iff in Hcmp.
      constructor; [now constructor |].
      constructor; [exact Hcmp |].
      eapply List.Forall_impl; [| exact Hall].
      intros y Hy. unfold scoreGe in *. lra.
    + constructor; [exact IH |].
      assert (Hlt : score e < score x).
      { apply Qnot_le_lt. intros Hle. apply Qle_bool_iff in Hle. congruence. }
      rewrite List.Forall_forall in *. intros y Hy.
      apply (Permutation_in _ (insertByScore_perm e l)) in Hy.
      destruct Hy as [<- | Hy]; [unfold scoreGe; lra | now apply Hall].
Qed.

Lemma sortByScoreDesc_sorted l : StronglySorted scoreGe (sortByScoreDesc l).
Proof.
  induction l as [| e l IH]; simpl; [constructor | now apply insertByScore_sorted].
Qed.

(** Inserting leaves the entries of any one score in their order, the
    new entry first. *)
Lemma insertByScore_filter (q : Q) e l :
  List.filter (fun y => Qeq_bool (score y) q) (insertByScore e l)
  = List.filter (fun y => Qeq_bool (score y) q) (e :: l).
Proof.
  induction l as [| x l IH]; [reflexivity |].
  cbn [insertByScore].
  destruct (Qle_bool (score x) (score e)) eqn:Hcmp; [reflexivity |].
  cbn [List.filter] in *. rewrite IH.
  destruct (Qeq_bool (score e) q) eqn:He; [| reflexivity].
  destruct (Qeq_bool (score x) q) eqn:Hx; [| reflexivity].
  apply Qeq_bool_iff in He, Hx.
  assert (Hle : score x <= score e) by (rewrite He, Hx; lra).
  apply Qle_bool_iff in Hle. congruence.
Qed.

Lemma sortByScoreDesc_stable (q : Q) l :
  List.filter (fun y => Qeq_bool (score y) q) (sortByScoreDesc l)
  = List.filter (fun y => Qeq_bool (score y) q) l.
Proof.
  induction l as [| e l IH]; [reflexivity |].
  cbn [sortByScoreDesc fold_right]. rewrite insertByScore_filter.
  cbn [List.filter]. fold (sortByScoreDesc l). now rewrite IH.
Qed.

Lemma sorted_adjacent l (i : nat) a b :
  StronglySorted scoreGe l ->
  nth_error l i = Some a -> nth_error l (S i) = Some b -> score b <= score a.
Proof.
  intros Hs. revert i. induction Hs as [| x l Hs IH Hall]; intros i Ha Hb.
  - now destruct i.
  - destruct i as [| i].
    + injection Ha as <-. rewrite List.Forall_forall in Hall.
      apply Hall. apply (nth_error_In l 0). exact Hb.
    + eapply IH; eassumption.
Qed.


Lemma filter_sorted (f : RankedEntry -> bool) l :
  StronglySorted scoreGe l -> StronglySorted scoreGe (List.filter f l).
Proof.
  induction 1 as [| x l Hs IH Hall]; cbn; [constructor |].
  destruct (f x); [| exact IH].
  constructor; [exact IH |].
  rewrite List.Forall_forall in *. intros y Hy.
  apply List.filter_In in Hy. now apply Hall.
Qed.

End SortFacts.

(* ================================================================== *)
(** * The ranking engine *)
(* ================================================================== *)

Section EngineFacts.

Variable prm : ScoringParams.

Lemma composite_range prof p : 0 <= composite prm prof p <= 1.
Proof. apply clamp01_range. Qed.

Lemma scorePhoto_range w prof p : 0 <= scorePhoto prm w prof p <= 1.
Proof. apply clamp01_range. Qed.

Lemma weightedSum_range w prof p :
  Normalized w -> MetricsInRange p -> 0 <= weightedSum prm w prof p <= 1.
Proof.
  intros (Ht & Hs & Hc & Hsum) ((Hs0 & Hs1) & (He0 & He1) & _).
  pose proof (composite_range prof p) as [Hc0 Hc1].
  unfold weightedSum.
  set (t := technical w) in *. set (s := storytelling w) in *.
  set (c := clientAlignment w) in *.
  set (sh := sharpness (metrics p)) in *. set (em := emotion (metrics p)) in *.
  set (co := composite prm prof p) in *.
  split; nra.
Qed.

(** On normalized weights and metrics in range the final clamp is
    inactive. *)
Lemma scorePhoto_unclamped w prof p :
  Normalized w -> MetricsInRange p ->
  scorePhoto prm w prof p == weightedSum prm w prof p.
Proof. intros Hw Hp. apply clamp01_id. now apply weightedSum_range. Qed.

Lemma ranking_entries photos w prof e :
  In e (buildPhotoRankings prm photos w prof) <->
  exists p, In p photos /\ e = rankEntry prm w prof p.
Proof.
  unfold buildPhotoRankings. split.
  - intros He. apply (Permutation_in _ (sortByScoreDesc_perm _)) in He.
    apply in_map_iff in He. destruct He as (p & <- & Hp). now exists p.
  - intros (p & Hp & ->).
    apply (Permutation_in _ (Permutation_sym (sortByScoreDesc_perm _))).
    now apply in_map.
Qed.

Lemma ranking_photos photos w prof :
  Permutation (map photo (buildPhotoRankings prm photos w prof)) photos.
Proof.
  unfold buildPhotoRankings.
  rewrite (Permutation_map photo (sortByScoreDesc_perm _)).
  rewrite map_map. cbn. now rewrite map_id.
Qed.

End EngineFacts.

(* ================================================================== *)
(** * Properties of the ranking output *)
(* ================================================================== *)

(** C1.  The ranking is in descending order of score, entries of equal
    score keep their catalog order (the sort is stable), and of two
    adjacent output entries the earlier one's score is at least the
    later one's. *)
Theorem ranking_sorted_stable (prm : ScoringParams) (photos : list Photo)
  (w : ScoringWeights) (prof : ClientProfile) :
  let out := buildPhotoRankings prm photos w prof in
  StronglySorted scoreGe out /\
  (forall q : Q,
      List.filter (fun e => Qeq_bool (score e) q) out
      = List.filter (fun e => Qeq_bool (score e) q)
                    (map (rankEntry prm w prof) photos)) /\
  (forall (i : nat) (a b : RankedEntry),
      nth_error out i = Some a -> nth_error out (S i) = Some b ->
      score b <= score a).
Proof.
  cbn zeta. unfold buildPhotoRankings. split; [| split].
  - apply sortByScoreDesc_sorted.
  - intros q. apply sortByScoreDesc_stable.
  - intros i a b. apply sorted_adjacent, sortByScoreDesc_sorted.
Qed.

(** C2.  The ranking is a permutation of the catalog: same photos, same
    length, same ids, nothing dropped or duplicated whatever the
    profile; the empty catalog gives the empty ranking. *)
Theorem ranking_permutation (prm : ScoringParams) (photos : list Photo)
  (w : ScoringWeights) (prof : ClientProfile) :
  let out := buildPhotoRankings prm photos w prof in
  Permutation (map photo out) photos /\
  length out = length photos /\
  Permutation (map (fun e => id (photo e)) out) (map id photos) /\
  (forall p : Photo, In p photos <-> In p (map photo out)) /\
  buildPhotoRankings prm [] w prof = [].
Proof.
  cbn zeta. pose proof (ranking_photos prm photos w prof) as Hperm.
  split; [exact Hperm |]. split; [| split; [| split]].
  - rewrite <- (length_map photo). now apply Permutation_length.
  - rewrite <- (map_map photo id). now apply Permutation_map.
  - intros p. split; intros Hp.
    + eapply Permutation_in; [apply Permutation_sym; exact Hperm | exact Hp].
    + eapply Permutation_in; [exact Hperm | exact Hp].
  - reflexivity.
Qed.

(** C3.  Every score in the ranking lies in [0,1]; it is the sum of the
    three weighted components clamped to [0,1], and the composite
    client-alignment sub-score is the adjusted relevance clamped to
    [0,1]. *)
Theorem score_in_unit_interval (prm : ScoringParams) (photos : list Photo)
  (w : ScoringWeights) (prof : ClientProfile) (e : RankedEntry) :
  In e (buildPhotoRankings prm photos w prof) ->
  0 <= score e <= 1 /\
  score e = clamp01 (technical w * sharpness (metrics (photo e))
                     + storytelling w * emotion (metrics (photo e))
                     + clientAlignment w * composite prm prof (photo e)) /\
  composite prm prof (photo e) = clamp01 (rawComposite prm prof (photo e)) /\
  0 <= composite prm prof (photo e) <= 1.
Proof.
  intros He. apply ranking_entries in He. destruct He as (p & _ & ->).
  cbn [score photo rankEntry].
  split; [apply scorePhoto_range |].
  split; [reflexivity |].
  split; [reflexivity | apply composite_range].
Qed.

Lemma ranking_sorted_stable_witness :
  let out := buildPhotoRankings sampleParams exampleCatalog exampleWeights plainProfile in
  nth_error out 0 = Some (rankEntry sampleParams exampleWeights plainProfile warmFrame) /\
  nth_error out 1 = Some (rankEntry sampleParams exampleWeights plainProfile sharpFrame) /\
  score (rankEntry sampleParams exampleWeights plainProfile sharpFrame)
  <= score (rankEntry sampleParams exampleWeights plainProfile warmFrame).
Proof.
  cbn zeta.
  assert (H0 : nth_error (buildPhotoRankings sampleParams exampleCatalog
                            exampleWeights plainProfile) 0
               = Some (rankEntry sampleParams exampleWeights plainProfile warmFrame))
    by (vm_compute; reflexivity).
  assert (H1 : nth_error (buildPhotoRankings sampleParams exampleCatalog
                            exampleWeights plainProfile) 1
               = Some (rankEntry sampleParams exampleWeights plainProfile sharpFrame))
    by (vm_compute; reflexivity).
  split; [exact H0 |]. split; [exact H1 |].
  exact (proj2 (proj2 (ranking_sorted_stable sampleParams exampleCatalog
                         exampleWeights plainProfile)) 0%nat _ _ H0 H1).
Defined.

Lemma score_in_unit_interval_witness :
  let e := rankEntry sampleParams exampleWeights plainProfile warmFrame in
  In e (buildPhotoRankings sampleParams exampleCatalog exampleWeights plainProfile) /\
  0 <= score e <= 1.
Proof.
  cbn zeta.
  assert (H : In (rankEntry sampleParams exampleWeights plainProfile warmFrame)
                 (buildPhotoRankings sampleParams exampleCatalog
                    exampleWeights plainProfile))
    by (vm_compute; left; reflexivity).
  split; [exact H |].
  exact (proj1 (score_in_unit_interval sampleParams exampleCatalog
                  exampleWeights plainProfile _ H)).
Defined.

(* ================================================================== *)
(** * The worked example *)
(* ================================================================== *)

Lemma scorePhoto_no_alignment (prm : ScoringParams) (w : ScoringWeights)
  (prof : ClientProfile) (p : Photo) :
  clientAlignment w == 0 ->
  scorePhoto prm w prof p
  == clamp01 (technical w * sharpness (metrics p)
              + storytelling w * emotion (metrics p)).
Proof.
  intros Hc. unfold scorePhoto, weightedSum. apply clamp01_proper.
  rewrite Hc. ring.
Qed.

Lemma sort_three (e1 e2 e3 : RankedEntry) :
  score e1 < score e2 -> score e3 <= score e1 ->
  sortByScoreDesc [e1; e2; e3] = [e2; e1; e3].
Proof.
  intros H12 H31. cbn.
  assert (H32 : Qle_bool (score e3) (score e2) = true)
    by (apply Qle_bool_iff; lra).
  rewrite H32. cbn.
  destruct (Qle_bool (score e2) (score e1)) eqn:H21.
  - apply Qle_bool_iff in H21. lra.
  - apply Qle_bool_iff in H31. now rewrite H31.
Qed.

(** C7.  On the three-photo catalog with sharpness 0.9, 0.3, 0.6, emotion
    0.2, 0.9, 0.5, clientRelevance 0.5 throughout and weights 0.5, 0.5, 0,
    the photo with emotion 0.9 comes first with score 0.6, ahead of the
    photo with sharpness 0.9, whose score is 0.55. *)
Theorem example_ranking (prm : ScoringParams) (prof : ClientProfile) :
  let out := buildPhotoRankings prm exampleCatalog exampleWeights prof in
  map photo out = [warmFrame; sharpFrame; evenFrame] /\
  Forall2 Qeq (map score out) [3 # 5; 11 # 20; 11 # 20].
Proof.
  cbn zeta. unfold buildPhotoRankings, exampleCatalog. cbn [map].
  assert (Hs : forall p, scorePhoto prm exampleWeights prof p
                         == clamp01 ((1 # 2) * sharpness (metrics p)
                                     + (1 # 2) * emotion (metrics p))).
  { intros p. now apply scorePhoto_no_alignment. }
  assert (H1 : scorePhoto prm exampleWeights prof sharpFrame == 11 # 20).
  { rewrite Hs. cbn. rewrite clamp01_id; lra. }
  assert (H2 : scorePhoto prm exampleWeights prof warmFrame == 3 # 5).
  { rewrite Hs. cbn. rewrite clamp01_id; lra. }
  assert (H3 : scorePhoto prm exampleWeights prof evenFrame == 11 # 20).
  { rewrite Hs. cbn. rewrite clamp01_id; lra. }
  rewrite sort_three.
  - cbn [map photo score rankEntry]. split; [reflexivity |].
    repeat constructor; assumption.
  - cbn [score rankEntry]. rewrite H1, H2. lra.
  - cbn [score rankEntry]. rewrite H1, H3. lra.
Qed.

(* ================================================================== *)
(** * Weight normalization *)
(* ================================================================== *)

(** In exact arithmetic the three quotients sum to 1. *)
Lemma normalizedWeights_total (w : ScoringWeights) :
  0 < technical w + storytelling w + clientAlignment w ->
  technical (normalizedWeights w) + storytelling (normalizedWeights w)
  + clientAlignment (normalizedWeights w) == 1.
Proof.
  intros Hpos. unfold normalizedWeights.
  cbn [technical storytelling clientAlignment]. field. lra.
Qed.

Lemma sliderStops_In (n : Z) : (15 <= n <= 70)%Z -> In n sliderStops.
Proof.
  intros Hn. unfold sliderStops. apply in_map_iff.
  exists (Z.to_nat (n - 15)). split; [lia |].
  apply in_seq. lia.
Qed.

Lemma forallb_In {A : Type} (f : A -> bool) (l : list A) (x : A) :
  forallb f l = true -> In x l -> f x = true.
Proof. intros Hall Hx. rewrite forallb_forall in Hall. now apply Hall. Qed.

Lemma stopsCheck_sound (l : list Z) (a b c : Z) :
  stopsCheck l = true -> In a l -> In b l -> In c l -> sliderCheck a b c = true.
Proof.
  intros Hall Ha Hb Hc. unfold stopsCheck in Hall.
  apply (forallb_In _ l c); [| exact Hc].
  apply (forallb_In (fun b => forallb (fun c => sliderCheck a b c) l) l b); [| exact Hb].
  exact (forallb_In _ l a Hall Ha).
Qed.

(** Every one of the 56 x 56 x 56 slider states passes the check. *)
Lemma allStopsCheck_true : stopsCheck sliderStops = true.
Proof. vm_compute. reflexivity. Qed.

Lemma slider_check_all (a b c : Z) :
  (15 <= a <= 70)%Z -> (15 <= b <= 70)%Z -> (15 <= c <= 70)%Z ->
  sliderCheck a b c = true.
Proof.
  intros Ha Hb Hc.
  exact (stopsCheck_sound sliderStops a b c allStopsCheck_true
           (sliderStops_In a Ha) (sliderStops_In b Hb) (sliderStops_In c Hc)).
Qed.

(** The three doubles do not always sum to 1: at the slider states
    (15,16,26) and (40,35,15), the latter one move away from the
    defaults, the sum is the double below 1, 0.9999999999999999; at
    (22,44,19) it is the double above 1. *)
Lemma normalizedWeights64_sum_not_one :
  (15 <= 15 <= 70)%Z /\ (15 <= 16 <= 70)%Z /\ (15 <= 26 <= 70)%Z /\
  (total64 (normalizedWeights64 (sliderWeights 15 16 26)) =? 1)%float = false /\
  (total64 (normalizedWeights64 (sliderWeights 15 16 26)) =? belowOne)%float = true /\
  exactValue (total64 (normalizedWeights64 (sliderWeights 15 16 26)))
  = Some (9007199254740991 # 9007199254740992) /\
  (total64 (normalizedWeights64 (sliderWeights 40 35 15)) =? belowOne)%float = true /\
  (total64 (normalizedWeights64 (sliderWeights 22 44 19)) =? aboveOne)%float = true.
Proof. repeat split; try lia; vm_compute; reflexivity. Qed.

(** C4 (amended).  For raw weights at slider positions (integers from
    15 to 70) the total is computed exactly and is strictly positive, so
    no division by zero occurs; each normalized weight is the double
    quotient of the raw weight by the total and lies strictly between 0
    and 1; and the three normalized weights sum to 1 up to one rounding:
    their sum is 1 or one of the two doubles next to 1. *)
Theorem normalizedWeights64_near_one (a b c : Z) :
  (15 <= a <= 70)%Z -> (15 <= b <= 70)%Z -> (15 <= c <= 70)%Z ->
  let w := sliderWeights a b c in
  let n := normalizedWeights64 w in
  (total64 w =? sliderValue (a + b + c))%float = true /\
  (0 <? total64 w)%float = true /\
  technical64 n = (technical64 w / total64 w)%float /\
  storytelling64 n = (storytelling64 w / total64 w)%float /\
  clientAlignment64 n = (clientAlignment64 w / total64 w)%float /\
  insideUnit (technical64 n) = true /\
  insideUnit (storytelling64 n) = true /\
  insideUnit (clientAlignment64 n) = true /\
  nearOne (total64 n) = true.
Proof.
  intros Ha Hb Hc. cbn zeta.
  pose proof (slider_check_all a b c Ha Hb Hc) as Hcheck.
  unfold sliderCheck in Hcheck. cbn zeta in Hcheck.
  repeat (apply andb_prop in Hcheck; destruct Hcheck as [Hcheck ?]).
  repeat split; assumption || reflexivity.
Qed.

Lemma normalizedWeights64_near_one_witness :
  nearOne (total64 (normalizedWeights64 (sliderWeights 40 35 25))) = true /\
  (total64 (normalizedWeights64 (sliderWeights 40 35 25)) =? 1)%float = true.
Proof.
  split; [| vm_compute; reflexivity].
  refine (proj2 (proj2 (proj2 (proj2 (proj2 (proj2 (proj2 (proj2
            (normalizedWeights64_near_one 40 35 25 _ _ _)))))))));
    lia.
Defined.

(* ================================================================== *)
(** * The minimum-faces penalty *)
(* ================================================================== *)


Lemma twins_sameExceptFaces (p q : Photo) :
  twinsExceptFaces p q -> sameExceptFaces p q.
Proof. unfold twinsExceptFaces, sameExceptFaces. tauto. Qed.






(* ================================================================== *)
(** * Raising the clientAlignment weight *)
(* ================================================================== *)

Lemma reweight_normalized (w : ScoringWeights) (c' : Q) :
  Normalized w -> clientAlignment w < c' -> c' <= 1 ->
  Normalized (reweight w c').
Proof.
  intros (Ht & Hs & Hc & Hsum) Hlt Hle.
  assert (Hd : 0 < 1 - clientAlignment w) by lra.
  assert (Hk : 0 <= (1 - c') / (1 - clientAlignment w)).
  { unfold Qdiv. apply Qmult_le_0_compat; [lra |].
    apply Qlt_le_weak. now apply Qinv_lt_0_compat. }
  unfold Normalized, reweight. cbn [technical storytelling clientAlignment].
  repeat split.
  - now apply Qmult_le_0_compat.
  - now apply Qmult_le_0_compat.
  - lra.
  - assert (E : technical w == 1 - clientAlignment w - storytelling w) by lra.
    rewrite E. field. lra.
Qed.

(** The change of the weighted sum, scaled by the old combined weight
    of the other two components. *)
Lemma reweight_difference (t s c c' sh em co : Q) :
  ~ 1 - c == 0 ->
  ((t * ((1 - c') / (1 - c)) * sh + s * ((1 - c') / (1 - c)) * em + c' * co)
   - (t * sh + s * em + c * co)) * (1 - c)
  == (c' - c) * ((1 - c) * co - (t * sh + s * em)).
Proof. intros Hd. field. exact Hd. Qed.


(** The absolute score of a photo rises with the clientAlignment
    weight exactly when its composite sub-score exceeds the mean of its
    sharpness and emotion weighted by the other two weights. *)
Lemma score_change_under_reweight (prm : ScoringParams) (w : ScoringWeights)
  (prof : ClientProfile) (p : Photo) (c' : Q) :
  Normalized w -> MetricsInRange p ->
  clientAlignment w < c' -> c' <= 1 ->
  (scorePhoto prm w prof p < scorePhoto prm (reweight w c') prof p <->
   technical w * sharpness (metrics p) + storytelling w * emotion (metrics p)
   < (technical w + storytelling w) * composite prm prof p).
Proof.
  intros Hw Hp Hlt Hle.
  pose proof (reweight_normalized w c' Hw Hlt Hle) as Hw'.
  rewrite !scorePhoto_unclamped by assumption.
  unfold weightedSum, reweight. cbn [technical storytelling clientAlignment].
  destruct Hw as (_ & _ & _ & Hsum).
  set (t := technical w) in *. set (s := storytelling w) in *.
  set (c := clientAlignment w) in *.
  set (sh := sharpness (metrics p)). set (em := emotion (metrics p)).
  set (co := composite prm prof p).
  assert (Hd : 0 < 1 - c) by lra.
  assert (Hts : t + s == 1 - c) by lra.
  pose proof (reweight_difference t s c c' sh em co ltac:(lra)) as Hdiff.
  rewrite Hts.
  set (S' := t * ((1 - c') / (1 - c)) * sh + s * ((1 - c') / (1 - c)) * em + c' * co) in *.
  set (S0 := t * sh + s * em + c * co) in *.
  set (T := t * sh + s * em) in *.
  set (d := 1 - c) in *.
  split; intros H; nra.
Qed.














(* ================================================================== *)
(** * The filtered view, the page and the hero *)
(* ================================================================== *)

Lemma firstn_prefix {A : Type} (n : nat) (l : list A) :
  exists rest, l = firstn n l ++ rest.
Proof. exists (skipn n l). symmetry. apply firstn_skipn. Qed.

(** C8.  On a ranking sorted by descending score, whatever the filter
    state: the page of top candidates is the prefix of the filtered list
    of length at most 12, and when the filtered list is not empty the
    hero is its first entry and no entry of the filtered view scores
    higher. *)
Theorem hero_tops_filtered_view (st : DashboardState) (ranked : list RankedEntry) :
  Sorted scoreGe ranked ->
  let view := filtered st ranked in
  let page := topCandidates st ranked in
  page = firstn 12 view /\
  (length page <= 12)%nat /\
  length page = Nat.min 12 (length view) /\
  (exists rest, view = page ++ rest) /\
  (view <> [] ->
   exists h, hero st ranked = Some h /\ hd_error view = Some h /\
             forall e, In e view -> score e <= score h).
Proof.
  intros Hsorted. cbn zeta.
  apply (Sorted_StronglySorted scoreGe_trans) in Hsorted.
  pose proof (filter_sorted (fun e => keeps st (photo e)) ranked Hsorted) as Hview.
  fold (filtered st ranked) in Hview.
  unfold hero, topCandidates.
  split; [reflexivity |].
  split; [apply firstn_le_length |].
  split; [apply length_firstn |].
  split; [apply firstn_prefix |].
  intros Hne. destruct (filtered st ranked) as [| h view]; [congruence |].
  exists h. cbn. split; [reflexivity |]. split; [reflexivity |].
  apply StronglySorted_inv in Hview. destruct Hview as [_ Hall].
  rewrite List.Forall_forall in Hall.
  intros e [<- | He]; [lra | now apply Hall].
Qed.

Example trim_lowercase_query : toLowerCase (trim "  ARCH ") = "arch"%string.
Proof. reflexivity. Qed.

Example trim_unicode_spaces :
  trim blankQuery = EmptyString
  /\ trim (String.append blankQuery (String.append "a b" blankQuery)) = "a b"%string
  /\ trim (bytes [226; 128; 139]%nat) = bytes [226; 128; 139]%nat.
Proof. repeat split; vm_compute; reflexivity. Qed.

Example search_keeps_matching_tag :
  keeps (step (SetTagQuery "  ARCH ") initialState) warmFrame = true
  /\ keeps (step (SetTagQuery "beach") initialState) warmFrame = false
  /\ keeps (step (ToggleMood "Joyful") initialState) warmFrame = false
  /\ keeps (step (ToggleMood "Calm") initialState) warmFrame = true.
Proof. repeat split; vm_compute; reflexivity. Qed.

Lemma hero_tops_filtered_view_witness :
  let st := step (SetTagQuery "  ARCH ") initialState in
  let ranked := buildPhotoRankings sampleParams exampleCatalog exampleWeights plainProfile in
  Sorted scoreGe ranked /\
  exists h, hero st ranked = Some h /\ hd_error (filtered st ranked) = Some h /\
            forall e, In e (filtered st ranked) -> score e <= score h.
Proof.
  cbn zeta.
  assert (Hs : Sorted scoreGe (buildPhotoRankings sampleParams exampleCatalog
                                 exampleWeights plainProfile))
    by (apply StronglySorted_Sorted, sortByScoreDesc_sorted).
  split; [exact Hs |].
  refine (proj2 (proj2 (proj2 (proj2
            (hero_tops_filtered_view (step (SetTagQuery "  ARCH ") initialState)
               _ Hs)))) _).
  vm_compute. discriminate.
Defined.

(* ================================================================== *)
(** * The selection set *)
(* ================================================================== *)

Lemma toggleSelection_self (i : string) (prev : gset string) :
  i ∈ toggleSelection i prev <-> i ∉ prev.
Proof.
  unfold toggleSelection.
  destruct (bool_decide (i ∈ prev)) eqn:E;
    [apply bool_decide_eq_true in E | apply bool_decide_eq_false in E].
  - rewrite elem_of_difference, elem_of_singleton. tauto.
  - rewrite elem_of_union, elem_of_singleton. tauto.
Qed.

Lemma toggleSelection_other (i j : string) (prev : gset string) :
  j <> i -> (j ∈ toggleSelection i prev <-> j ∈ prev).
Proof.
  intros Hne. unfold toggleSelection.
  destruct (bool_decide (i ∈ prev)).
  - rewrite elem_of_difference, elem_of_singleton. tauto.
  - rewrite elem_of_union, elem_of_singleton. tauto.
Qed.

Lemma step_keeps_selection (a : Action) (st : DashboardState) :
  editsShortlist a = false -> selectedIds (step a st) = selectedIds st.
Proof. destruct a; cbn; intros H; try reflexivity; discriminate H. Qed.

Lemma run_keeps_selection (acts : list Action) (st : DashboardState) :
  forallb (fun a => negb (editsShortlist a)) acts = true ->
  selectedIds (run acts st) = selectedIds st.
Proof.
  revert st. induction acts as [| a acts IH]; intros st Hall; [reflexivity |].
  cbn in Hall. apply andb_prop in Hall. destruct Hall as [Ha Hall].
  cbn [run]. rewrite (IH _ Hall). apply step_keeps_selection.
  now apply negb_true_iff.
Qed.

(** C9.  [toggleSelection id] flips the membership of [id] and leaves
    the membership of every other id as it was; and no change of the
    weights, the profile, the filters or the search text changes the
    selection set, so the shortlist of a catalog is the same after any
    sequence of such changes. *)
Theorem selection_toggle_and_persistence (i : string) (prev : gset string)
  (acts : list Action) (st : DashboardState) (photos : list Photo) :
  (i ∈ toggleSelection i prev <-> i ∉ prev) /\
  (forall j : string, j <> i -> (j ∈ toggleSelection i prev <-> j ∈ prev)) /\
  (forallb (fun a => negb (editsShortlist a)) acts = true ->
   selectedIds (run acts st) = selectedIds st /\
   shortlist photos (selectedIds (run acts st))
   = shortlist photos (selectedIds st)).
Proof.
  split; [apply toggleSelection_self |].
  split; [intros j; apply toggleSelection_other |].
  intros Hacts. pose proof (run_keeps_selection acts st Hacts) as Hsel.
  split; [exact Hsel | now rewrite Hsel].
Qed.

Lemma selection_toggle_and_persistence_witness :
  let acts := [AdjustWeight KTechnical 50; ToggleProfileField KPreferredMoods "Calm";
               SetMinimumFaces 2; ToggleShotType "Portrait"; SetTagQuery "arch";
               SetShowSelectedOnly true] in
  let st := step (ToggleSelection "warm") initialState in
  ("a" : string) ∈ toggleSelection "a" {[ "b" ]} /\
  ("b" : string) ∈ toggleSelection "a" {[ "b" ]} /\
  selectedIds (run acts st) = selectedIds st /\
  shortlist exampleCatalog (selectedIds (run acts st)) = [warmFrame].
Proof.
  cbn zeta.
  pose proof (selection_toggle_and_persistence "a" {[ "b" ]}
                [AdjustWeight KTechnical 50; ToggleProfileField KPreferredMoods "Calm";
                 SetMinimumFaces 2; ToggleShotType "Portrait"; SetTagQuery "arch";
                 SetShowSelectedOnly true]
                (step (ToggleSelection "warm") initialState) exampleCatalog)
    as (Hself & Hother & Hkeep).
  split. { apply Hself. rewrite elem_of_singleton. discriminate. }
  split. { apply Hother; [discriminate | now apply elem_of_singleton]. }
  destruct (Hkeep eq_refl) as [Hsel Hshort].
  split; [exact Hsel |].
  rewrite Hshort. vm_compute. reflexivity.
Defined.

(* ================================================================== *)
(** * The shortlist summary *)
(* ================================================================== *)

Example toFixed0_rounds :
  toFixed0 (5 # 2) = 3%Z /\ toFixed0 (12 # 5) = 2%Z /\ toFixed0 (- (5 # 2)) = (-3)%Z.
Proof. repeat split; reflexivity. Qed.

#[global] Instance toFixed0_proper : Proper (Qeq ==> eq) toFixed0.
Proof.
  intros x y Hxy. unfold toFixed0.
  rewrite (Qleb_comp 0 0 (Qeq_refl 0) x y Hxy).
  destruct (Qle_bool 0 y); [| f_equal]; apply Qfloor_comp; rewrite Hxy; reflexivity.
Qed.

Lemma shortlist_in (photos : list Photo) (sel : gset string) (p : Photo) :
  In p (shortlist photos sel) -> In p photos /\ id p ∈ sel.
Proof.
  unfold shortlist. rewrite List.filter_In. intros [Hp Hsel].
  split; [exact Hp | now apply bool_decide_eq_true in Hsel].
Qed.

Lemma findEntry_found (ranked : list RankedEntry) (p : Photo) :
  (exists e, In e ranked /\ id (photo e) = id p) ->
  exists e, findEntry ranked p = Some e /\ In e ranked /\ id (photo e) = id p.
Proof.
  intros (e & He & Hid). unfold findEntry.
  destruct (List.find _ ranked) as [e' |] eqn:Hfind.
  - apply find_some in Hfind. destruct Hfind as [Hin Heq].
    apply String.eqb_eq in Heq. now exists e'.
  - apply (find_none _ _ Hfind) in He. cbn in He.
    rewrite Hid, String.eqb_refl in He. discriminate He.
Qed.

Lemma fold_left_sum {A : Type} (f : A -> Q) (l : list A) (acc : Q) :
  fold_left (fun a x => a + f x) l acc == acc + sumQ (map f l).
Proof.
  revert acc. induction l as [| x l IH]; intros acc; cbn [fold_left map].
  - unfold sumQ. cbn. ring.
  - rewrite IH. unfold sumQ. cbn [fold_right]. ring.
Qed.

Lemma alignmentSum_sumQ (ranked : list RankedEntry) (l : list Photo) :
  alignmentSum ranked l == sumQ (map (fun p => scoreOr 0 (findEntry ranked p)) l).
Proof. unfold alignmentSum. rewrite fold_left_sum. ring. Qed.

Lemma findEntry64_found (ranked : list Entry64) (p : Photo) :
  (exists e, In e ranked /\ id (photo64 e) = id p) ->
  exists e, findEntry64 ranked p = Some e /\ In e ranked /\ id (photo64 e) = id p.
Proof.
  intros (e & He & Hid). unfold findEntry64.
  destruct (List.find _ ranked) as [e' |] eqn:Hfind.
  - apply find_some in Hfind. destruct Hfind as [Hin Heq].
    apply String.eqb_eq in Heq. now exists e'.
  - apply (find_none _ _ Hfind) in He. cbn in He.
    rewrite Hid, String.eqb_refl in He. discriminate He.
Qed.

Lemma NoDup_map_eq {A B : Type} (f : A -> B) (l : list A) (x y : A) :
  List.NoDup (map f l) -> In x l -> In y l -> f x = f y -> x = y.
Proof.
  induction l as [| z l IH]; intros Hnd Hx Hy Hf; [contradiction |].
  cbn in Hnd. apply List.NoDup_cons_iff in Hnd. destruct Hnd as [Hz Hnd].
  destruct Hx as [-> | Hx], Hy as [-> | Hy].
  - reflexivity.
  - exfalso. apply Hz. rewrite Hf. now apply in_map.
  - exfalso. apply Hz. rewrite <- Hf. now apply in_map.
  - now apply IH.
Qed.

(** With distinct ids the entry found for a photo is its own. *)
Lemma findEntry64_own (ranked : list Entry64) (e : Entry64) :
  List.NoDup (map (fun x => id (photo64 x)) ranked) -> In e ranked ->
  findEntry64 ranked (photo64 e) = Some e.
Proof.
  intros Hnd He.
  destruct (findEntry64_found ranked (photo64 e)) as (e' & Hfind & He' & Hid).
  { now exists e. }
  rewrite Hfind. f_equal.
  exact (NoDup_map_eq (fun x => id (photo64 x)) ranked e' e Hnd He' He Hid).
Qed.

Lemma fold_left_add_ext {A : Type} (f g : A -> float) (l : list A) (acc : float) :
  (forall x, In x l -> f x = g x) ->
  fold_left (fun a x => (a + f x)%float) l acc
  = fold_left (fun a x => (a + x)%float) (map g l) acc.
Proof.
  revert acc. induction l as [| x l IH]; intros acc Hfg; [reflexivity |].
  cbn [fold_left map]. rewrite (Hfg x (or_introl eq_refl)).
  apply IH. intros y Hy. apply Hfg. now right.
Qed.

(** The mean fails on repeated ids: in a catalog of two photos that share
    an id, ranked with scores 1 and 0.5, both shortlisted, every lookup
    succeeds, yet both find the first entry: the badge reads 100 where
    the mean of the two ranked scores is 75.  And with distinct ids the
    badge is the mean only as binary64 computes it: for the ranked
    scores 0.6 and 0.55 (the doubles [0x1.3333333333333p-1] and
    [0x1.199999999999ap-1]) it reads 57, where their exact mean, just
    above 0.575, would read 58. *)
Lemma shortlist_average_repeated_ids :
  (forall p, In p [dupA; dupB] ->
     exists e, In e dupRanked64 /\ photo64 e = p) /\
  map photo64 dupRanked64 = [dupA; dupB] /\
  shortlist [dupA; dupB] {[ "dup" ]} = [dupA; dupB] /\
  findEntry64 dupRanked64 dupA = Some {| photo64 := dupA; score64 := 1%float |} /\
  findEntry64 dupRanked64 dupB = Some {| photo64 := dupA; score64 := 1%float |} /\
  avgAlignmentShown64 [dupA; dupB] dupRanked64 {[ "dup" ]} = Some 100%Z /\
  meanShown64 (map score64 dupRanked64) = Some 75%Z /\
  map photo64 exampleRanked64 = [warmFrame; sharpFrame; evenFrame] /\
  shortlist exampleCatalog {[ "warm"; "even" ]} = [warmFrame; evenFrame] /\
  map (shortlistCardScore64 exampleRanked64) [warmFrame; evenFrame]
  = [0x1.3333333333333p-1; 0x1.199999999999ap-1]%float /\
  avgAlignmentShown64 exampleCatalog exampleRanked64 {[ "warm"; "even" ]}
  = Some 57%Z /\
  exactMeanShown [0x1.3333333333333p-1; 0x1.199999999999ap-1]%float = Some 58%Z.
Proof.
  split.
  { intros p [<- | [<- | []]].
    - exists {| photo64 := dupA; score64 := 1%float |}.
      split; [left |]; reflexivity.
    - exists {| photo64 := dupB; score64 := 0.5%float |}.
      split; [right; left |]; reflexivity. }
  repeat split; vm_compute; reflexivity.
Qed.

(** C10 (amended).  When the ranking has an entry for every photo of
    the catalog, the lookup succeeds for every shortlisted photo, so
    neither default ([?? 0] in the average, [?? 0.5] on the cards) is
    ever used.  When moreover the ids of the ranking are distinct and
    [sc] gives the score the ranking pairs with each photo, the entry
    found is the photo's own, each card shows the photo's own score, and
    the badge is the arithmetic mean of the ranked scores of the
    shortlisted photos as the component computes it in binary64: summed
    left to right from 0, divided by their number, times 100, printed
    with [toFixed(0)]. *)
Theorem shortlist_fallbacks_unreachable64 (photos : list Photo)
  (ranked : list Entry64) (sel : gset string) (sc : Photo -> float) :
  (forall p, In p photos -> exists e, In e ranked /\ id (photo64 e) = id p) ->
  let sl := shortlist photos sel in
  (forall p, In p sl ->
     exists e, findEntry64 ranked p = Some e /\ In e ranked
               /\ id (photo64 e) = id p) /\
  (forall p (d d' : float), In p sl ->
     scoreOr64 d (findEntry64 ranked p) = scoreOr64 d' (findEntry64 ranked p)) /\
  (List.NoDup (map (fun e => id (photo64 e)) ranked) ->
   (forall p, In p photos -> In {| photo64 := p; score64 := sc p |} ranked) ->
   (forall p, In p sl ->
      findEntry64 ranked p = Some {| photo64 := p; score64 := sc p |}) /\
   map (shortlistCardScore64 ranked) sl = map sc sl /\
   avgAlignmentShown64 photos ranked sel
   = match sl with
     | [] => Some 0%Z
     | _ => meanShown64 (map sc sl)
     end).
Proof.
  intros Hcover. cbn zeta.
  assert (Hfound : forall p, In p (shortlist photos sel) ->
            exists e, findEntry64 ranked p = Some e /\ In e ranked
                      /\ id (photo64 e) = id p).
  { intros p Hp. apply findEntry64_found, Hcover. now apply shortlist_in in Hp. }
  split; [exact Hfound |]. split.
  { intros p d d' Hp. destruct (Hfound p Hp) as (e & -> & _). reflexivity. }
  intros Hnd Hown.
  assert (Hfind : forall p, In p (shortlist photos sel) ->
            findEntry64 ranked p = Some {| photo64 := p; score64 := sc p |}).
  { intros p Hp. apply shortlist_in in Hp. destruct Hp as [Hp _].
    exact (findEntry64_own ranked {| photo64 := p; score64 := sc p |} Hnd (Hown p Hp)). }
  split; [exact Hfind |]. split.
  - apply map_ext_in. intros p Hp. unfold shortlistCardScore64.
    now rewrite (Hfind p Hp).
  - unfold avgAlignmentShown64, meanShown64, mean64, sum64, alignmentSum64.
    destruct (shortlist photos sel) as [| p sl] eqn:Hsl; [reflexivity |].
    rewrite (fold_left_add_ext _ sc (p :: sl) 0%float).
    + unfold lengthDouble. now rewrite length_map.
    + intros q Hq. now rewrite (Hfind q Hq).
Qed.

(** Without an entry the defaults do show. *)
Example fallback_without_entry :
  shortlistCardScore64 [] warmFrame = 0.5%float /\
  avgAlignmentShown64 exampleCatalog [] {[ "warm" ]} = Some 0%Z.
Proof. split; vm_compute; reflexivity. Qed.

(** With scores 0.6 and 0.55 the sum 0 + 0.6 + 0.55 is the double below
    1.15, so the badge reads 57, not 58. *)
Lemma shortlist_fallbacks_unreachable64_witness :
  shortlist exampleCatalog {[ "warm"; "even" ]} = [warmFrame; evenFrame] /\
  avgAlignmentShown64 exampleCatalog exampleRanked64 {[ "warm"; "even" ]} = Some 57%Z.
Proof.
  assert (Hsl : shortlist exampleCatalog {[ "warm"; "even" ]} = [warmFrame; evenFrame])
    by (vm_compute; reflexivity).
  split; [exact Hsl |].
  destruct (shortlist_fallbacks_unreachable64 exampleCatalog exampleRanked64
              {[ "warm"; "even" ]} exampleScore64) as (_ & _ & Hown).
  { intros p Hp. exists {| photo64 := p; score64 := exampleScore64 p |}.
    split; [| reflexivity].
    destruct Hp as [<- | [<- | [<- | []]]];
      [right; left | left | right; right; left]; reflexivity. }
  destruct Hown as (_ & _ & Hshown).
  { repeat constructor; cbn; intuition discriminate. }
  { intros p [<- | [<- | [<- | []]]];
      [right; left | left | right; right; left]; reflexivity. }
  rewrite Hshown, Hsl. vm_compute. reflexivity.
Defined.

(** The engine's output meets the precondition. *)
Lemma ranking_covers (prm : ScoringParams) (photos : list Photo)
  (w : ScoringWeights) (prof : ClientProfile) (p : Photo) :
  In p photos ->
  exists e, In e (buildPhotoRankings prm photos w prof) /\ id (photo e) = id p.
Proof.
  intros Hp. exists (rankEntry prm w prof p). split; [| reflexivity].
  apply ranking_entries. now exists p.
Qed.

Lemma unique_id_photo (photos : list Photo) (p q : Photo) :
  List.NoDup (map id photos) -> In p photos -> In q photos -> id p = id q -> p = q.
Proof.
  induction photos as [| x photos IH]; intros Hnd Hp Hq Hid; [contradiction |].
  cbn in Hnd. apply List.NoDup_cons_iff in Hnd. destruct Hnd as [Hx Hnd].
  destruct Hp as [-> | Hp], Hq as [-> | Hq].
  - reflexivity.
  - exfalso. apply Hx. rewrite Hid. now apply in_map.
  - exfalso. apply Hx. rewrite <- Hid. now apply in_map.
  - now apply IH.
Qed.

(** With distinct ids, the entry found for a catalog photo by the
    engine's ranking is the photo's own entry. *)
Lemma findEntry_own_entry (prm : ScoringParams) (photos : list Photo)
  (w : ScoringWeights) (prof : ClientProfile) (p : Photo) :
  List.NoDup (map id photos) -> In p photos ->
  findEntry (buildPhotoRankings prm photos w prof) p = Some (rankEntry prm w prof p).
Proof.
  intros Hnd Hp.
  destruct (findEntry_found _ p (ranking_covers prm photos w prof p Hp))
    as (e & Hfind & He & Hid).
  apply ranking_entries in He. destruct He as (q & Hq & ->).
  cbn in Hid. now rewrite (unique_id_photo photos q p Hnd Hq Hp Hid) in Hfind.
Qed.

(* ================================================================== *)
(** * The dashboard as a whole *)
(* ================================================================== *)

Lemma adjustWeight_range (key : WeightKey) (value : Q) (w : ScoringWeights) :
  15 <= value <= 70 -> SliderRange w -> SliderRange (adjustWeight key value w).
Proof.
  intros Hv (Ht & Hs & Hc). destruct key; unfold SliderRange; cbn; tauto.
Qed.

Lemma step_slider_range (a : Action) (st : DashboardState) :
  sliderEvent a -> SliderRange (weights st) -> SliderRange (weights (step a st)).
Proof.
  destruct a; cbn [step weights sliderEvent]; intros Ha Hst; try exact Hst.
  now apply adjustWeight_range.
Qed.

(** The slider range is an invariant of the component. *)
Lemma run_slider_range (acts : list Action) (st : DashboardState) :
  List.Forall sliderEvent acts -> SliderRange (weights st) ->
  SliderRange (weights (run acts st)).
Proof.
  intros Hacts. revert st.
  induction Hacts as [| a acts Ha _ IH]; intros st Hst; [exact Hst |].
  cbn [run]. apply IH. now apply step_slider_range.
Qed.

Lemma initial_slider_range : SliderRange (weights initialState).
Proof. unfold SliderRange. repeat split; qcompute. Qed.

Lemma step_at_stops (a : Action) (st : DashboardState) :
  stopEvent a ->
  (exists x y z, AtStops (weights st) x y z) ->
  exists x y z, AtStops (weights (step a st)) x y z.
Proof.
  intros Ha (x & y & z & Hx & Hy & Hz & Hw).
  destruct a as [key v | | | | | | | | |]; cbn [step weights];
    try (exists x, y, z; unfold AtStops; tauto).
  destruct Ha as (n & Hn & ->). rewrite Hw.
  destruct key; cbn [adjustWeight technical storytelling clientAlignment].
  - exists n, y, z. unfold AtStops. repeat (split; [assumption |]). reflexivity.
  - exists x, n, z. unfold AtStops. repeat (split; [assumption |]). reflexivity.
  - exists x, y, n. unfold AtStops. repeat (split; [assumption |]). reflexivity.
Qed.

Lemma run_at_stops (acts : list Action) (st : DashboardState) :
  List.Forall stopEvent acts ->
  (exists x y z, AtStops (weights st) x y z) ->
  exists x y z, AtStops (weights (run acts st)) x y z.
Proof.
  intros Hacts. revert st.
  induction Hacts as [| a acts Ha _ IH]; intros st Hst; [exact Hst |].
  cbn [run]. apply IH. now apply step_at_stops.
Qed.

(** X12.  Starting from the default weights, after any sequence of
    events whose slider values are slider positions, the raw weights are
    integers from 15 to 70, their total is positive, and the normalized
    weights the component computes in binary64 sum to 1 or to one of the
    two doubles next to 1. *)
Theorem reachable_weights_near_normalized (acts : list Action) :
  List.Forall stopEvent acts ->
  exists a b c,
    AtStops (weights (run acts initialState)) a b c /\
    (0 <? total64 (sliderWeights a b c))%float = true /\
    nearOne (total64 (normalizedWeights64 (sliderWeights a b c))) = true.
Proof.
  intros Hacts.
  destruct (run_at_stops acts initialState Hacts) as (a & b & c & Hw).
  { exists 40%Z, 35%Z, 25%Z. unfold AtStops.
    repeat (split; [lia |]). reflexivity. }
  exists a, b, c. split; [exact Hw |].
  destruct Hw as (Ha & Hb & Hc & _).
  pose proof (slider_check_all a b c Ha Hb Hc) as Hcheck.
  unfold sliderCheck in Hcheck. cbn zeta in Hcheck.
  repeat (apply andb_prop in Hcheck; destruct Hcheck as [Hcheck ?]).
  split; assumption.
Qed.

Lemma reachable_weights_near_normalized_witness :
  exists a b c,
    AtStops (weights (run [AdjustWeight KClientAlignment 15; ToggleMood "Calm"]
                          initialState)) a b c /\
    (0 <? total64 (sliderWeights a b c))%float = true /\
    nearOne (total64 (normalizedWeights64 (sliderWeights a b c))) = true.
Proof.
  apply reachable_weights_near_normalized.
  apply List.Forall_cons.
  - exists 15%Z. split; [lia | reflexivity].
  - apply List.Forall_cons; [exact I | apply List.Forall_nil].
Defined.

Lemma firstn_In {A : Type} (n : nat) (l : list A) (x : A) :
  In x (firstn n l) -> In x l.
Proof.
  destruct (firstn_prefix n l) as [rest Hl]. intros Hx.
  rewrite Hl. apply in_or_app. now left.
Qed.

(** On a catalog with distinct ids every shortlist card shows the score
    the engine gave its photo. *)
Lemma shortlist_cards_ranked_scores (prm : ScoringParams) (photos : list Photo)
  (st : DashboardState) (p : Photo) (s : Q) :
  List.NoDup (map id photos) ->
  In (p, s) (shortlistCards photos (rankedPhotos prm photos st) (selectedIds st)) ->
  s = scorePhoto prm (normalizedWeights (weights st)) (profile st) p.
Proof.
  intros Hnd Hin. unfold shortlistCards in Hin.
  apply in_map_iff in Hin. destruct Hin as (q & Heq & Hq).
  injection Heq as -> <-.
  assert (Hp : In p photos).
  { apply (shortlist_in photos (selectedIds st)).
    apply (firstn_In 9). exact Hq. }
  unfold shortlistCardScore, rankedPhotos.
  now rewrite (findEntry_own_entry prm photos _ _ p Hnd Hp).
Qed.

(* ================================================================== *)
(** * More on the selection set *)
(* ================================================================== *)

Lemma elem_of_toggleSelection (x i : string) (s : gset string) :
  x ∈ toggleSelection i s <-> (x = i /\ i ∉ s) \/ (x <> i /\ x ∈ s).
Proof.
  destruct (decide (x = i)) as [-> | Hne].
  - rewrite toggleSelection_self. tauto.
  - rewrite (toggleSelection_other i x s Hne). tauto.
Qed.

(** X1.  Toggling the same id twice gives back the selection set:
    a second click on "Select" undoes the first. *)
Theorem toggleSelection_involutive (i : string) (s : gset string) :
  toggleSelection i (toggleSelection i s) = s.
Proof.
  apply set_eq. intros x. rewrite !elem_of_toggleSelection.
  destruct (decide (x = i)) as [-> | Hne]; [| tauto].
  destruct (decide (i ∈ s)); tauto.
Qed.

(** X2.  Toggles commute: the selection after two clicks does not
    depend on their order. *)
Theorem toggleSelection_comm (i j : string) (s : gset string) :
  toggleSelection i (toggleSelection j s) = toggleSelection j (toggleSelection i s).
Proof.
  apply set_eq. intros x. rewrite !elem_of_toggleSelection.
  destruct (decide (x = i)) as [Hi | Hi], (decide (x = j)) as [Hj | Hj];
    destruct (decide (i ∈ s)), (decide (j ∈ s));
    subst; tauto.
Qed.

(** X3.  A toggle changes the size of the selection (the "Ready for
    delivery" counter) by exactly one: down when the id was selected,
    up when it was not. *)
Theorem toggleSelection_size (i : string) (s : gset string) :
  size (toggleSelection i s)
  = if bool_decide (i ∈ s) then (size s - 1)%nat else S (size s).
Proof.
  unfold toggleSelection.
  destruct (bool_decide (i ∈ s)) eqn:E;
    [apply bool_decide_eq_true in E | apply bool_decide_eq_false in E].
  - rewrite size_difference by (now apply singleton_subseteq_l).
    now rewrite size_singleton.
  - rewrite size_union.
    + rewrite size_singleton. lia.
    + apply elem_of_disjoint. intros x Hx Hx'.
      apply elem_of_singleton in Hx'. now subst x.
Qed.

Lemma shortlist_elem (photos : list Photo) (sel : gset string) (p : Photo) :
  In p (shortlist photos sel) <-> In p photos /\ id p ∈ sel.
Proof.
  unfold shortlist. rewrite List.filter_In, bool_decide_eq_true. tauto.
Qed.

(** X4.  Toggling a catalog photo puts it in the shortlist exactly when
    it was not there, and no photo with another id enters or leaves. *)
Theorem toggle_updates_shortlist (photos : list Photo) (sel : gset string)
  (p q : Photo) :
  In p photos ->
  (In p (shortlist photos (toggleSelection (id p) sel))
   <-> ~ In p (shortlist photos sel)) /\
  (id q <> id p ->
   (In q (shortlist photos (toggleSelection (id p) sel))
    <-> In q (shortlist photos sel))).
Proof.
  intros Hp. rewrite !shortlist_elem. split.
  - rewrite toggleSelection_self. tauto.
  - intros Hne. now rewrite (toggleSelection_other (id p) (id q) sel Hne).
Qed.

Lemma toggle_updates_shortlist_witness :
  In warmFrame (shortlist exampleCatalog (toggleSelection "warm" ∅)) /\
  ~ In sharpFrame (shortlist exampleCatalog (toggleSelection "warm" ∅)).
Proof.
  assert (Hp : In warmFrame exampleCatalog) by (right; left; reflexivity).
  destruct (toggle_updates_shortlist exampleCatalog ∅ warmFrame sharpFrame Hp)
    as [Hself Hother].
  split.
  - apply Hself. rewrite shortlist_elem. intros [_ H].
    now apply not_elem_of_empty in H.
  - intros H. apply Hother in H; [| discriminate].
    apply shortlist_elem in H. destruct H as [_ H].
    now apply not_elem_of_empty in H.
Defined.

Lemma shortlist_empty (photos : list Photo) : shortlist photos ∅ = [].
Proof.
  unfold shortlist. induction photos as [| p photos IH]; [reflexivity |].
  cbn [List.filter]. rewrite IH.
  destruct (bool_decide (id p ∈ (∅ : gset string))) eqn:E; [| reflexivity].
  apply bool_decide_eq_true in E. now apply not_elem_of_empty in E.
Qed.

Lemma filter_none {A : Type} (f : A -> bool) (l : list A) :
  (forall x, In x l -> f x = false) -> List.filter f l = [].
Proof.
  induction l as [| x l IH]; intros Hall; [reflexivity |].
  cbn [List.filter]. rewrite (Hall x (or_introl eq_refl)).
  apply IH. intros y Hy. apply Hall. now right.
Qed.

(** X5.  "Clear shortlist" leaves nothing selected: the shortlist and
    its cards are empty, the counter and the average read 0, and with
    "Show shortlist only" checked the filtered view is empty, so there
    is no hero and the hero confidence reads 0. *)
Theorem clear_empties_shortlist (photos : list Photo)
  (ranked : list RankedEntry) (st : DashboardState) :
  let st' := step ClearSelections st in
  shortlist photos (selectedIds st') = [] /\
  shortlistCards photos ranked (selectedIds st') = [] /\
  size (selectedIds st') = 0%nat /\
  avgAlignmentShown photos ranked (selectedIds st') = 0%Z /\
  (showSelectedOnly st = true ->
   filtered st' ranked = [] /\ hero st' ranked = None /\
   heroConfidence st' ranked = 0%Z).
Proof.
  cbn zeta.
  assert (Hsel : selectedIds (step ClearSelections st) = ∅) by reflexivity.
  rewrite Hsel.
  split; [apply shortlist_empty |].
  split; [unfold shortlistCards; now rewrite shortlist_empty |].
  split; [apply size_empty |].
  split; [unfold avgAlignmentShown, avgAlignmentPercent;
          now rewrite shortlist_empty |].
  intros Hshow.
  assert (Hview : filtered (step ClearSelections st) ranked = []).
  { unfold filtered. apply filter_none. intros e _.
    unfold keeps. cbn [step showSelectedOnly selectedIds]. rewrite Hshow.
    unfold clearSelections.
    destruct (bool_decide (id (photo e) ∈ (∅ : gset string))) eqn:E; [| reflexivity].
    apply bool_decide_eq_true in E. now apply not_elem_of_empty in E. }
  split; [exact Hview |].
  unfold heroConfidence, hero, topCandidates. now rewrite Hview.
Qed.

Lemma clear_empties_shortlist_witness :
  let st := step (SetShowSelectedOnly true) (step (ToggleSelection "warm") initialState) in
  let ranked := buildPhotoRankings sampleParams exampleCatalog exampleWeights plainProfile in
  hero st ranked <> None /\ hero (step ClearSelections st) ranked = None.
Proof.
  cbn zeta. split; [vm_compute; discriminate |].
  exact (proj1 (proj2 (proj2 (proj2 (proj2 (proj2
           (clear_empties_shortlist exampleCatalog
              (buildPhotoRankings sampleParams exampleCatalog exampleWeights plainProfile)
              (step (SetShowSelectedOnly true)
                    (step (ToggleSelection "warm") initialState))))))
           eq_refl))).
Defined.

Lemma catalogIds_cons (x : Photo) (photos : list Photo) (i : string) :
  i ∈ catalogIds (x :: photos) <-> i = id x \/ i ∈ catalogIds photos.
Proof.
  unfold catalogIds. cbn [map list_to_set].
  now rewrite elem_of_union, elem_of_singleton.
Qed.

Lemma catalogIds_In (photos : list Photo) (i : string) :
  i ∈ catalogIds photos <-> In i (map id photos).
Proof.
  unfold catalogIds. now rewrite elem_of_list_to_set, list_elem_of_In.
Qed.

Lemma shortlist_ext (photos : list Photo) (s1 s2 : gset string) :
  (forall p, In p photos -> (id p ∈ s1 <-> id p ∈ s2)) ->
  shortlist photos s1 = shortlist photos s2.
Proof.
  intros Hext. unfold shortlist. apply List.filter_ext_in. intros p Hp.
  specialize (Hext p Hp).
  destruct (bool_decide (id p ∈ s1)) eqn:E1, (bool_decide (id p ∈ s2)) eqn:E2;
    try reflexivity.
  - apply bool_decide_eq_true in E1. apply bool_decide_eq_false in E2. tauto.
  - apply bool_decide_eq_false in E1. apply bool_decide_eq_true in E2. tauto.
Qed.

(** With distinct ids, a selection inside the catalog has as many ids as
    the shortlist has photos. *)
Lemma shortlist_length_size (photos : list Photo) (sel : gset string) :
  List.NoDup (map id photos) -> sel ⊆ catalogIds photos ->
  length (shortlist photos sel) = size sel.
Proof.
  revert sel. induction photos as [| x photos IH]; intros sel Hnd Hsub.
  - cbn. symmetry. apply size_empty_iff. apply elem_of_equiv_empty. intros i Hi.
    apply Hsub in Hi. unfold catalogIds in Hi. cbn in Hi.
    now apply not_elem_of_empty in Hi.
  - cbn [map] in Hnd. apply List.NoDup_cons_iff in Hnd. destruct Hnd as [Hx Hnd].
    unfold shortlist. cbn [List.filter]. fold (shortlist photos sel).
    destruct (bool_decide (id x ∈ sel)) eqn:E;
      [apply bool_decide_eq_true in E | apply bool_decide_eq_false in E].
    + rewrite (shortlist_ext photos sel (sel ∖ {[ id x ]})).
      2:{ intros p Hp. rewrite elem_of_difference, elem_of_singleton.
          split; [| tauto]. intros Hsel. split; [exact Hsel |].
          intros Heq. apply Hx. rewrite <- Heq. now apply in_map. }
      cbn [length]. rewrite IH; [| exact Hnd |].
      * rewrite size_difference by (now apply singleton_subseteq_l).
        rewrite size_singleton.
        assert (size sel <> 0%nat).
        { intros Hz. apply size_empty_iff in Hz.
          apply (proj1 (elem_of_equiv_empty sel) Hz (id x) E). }
        lia.
      * intros i Hi. apply elem_of_difference in Hi. destruct Hi as [Hi Hne].
        apply Hsub, catalogIds_cons in Hi. destruct Hi as [-> | Hi]; [| exact Hi].
        exfalso. apply Hne. now apply elem_of_singleton.
    + apply IH; [exact Hnd |]. intros i Hi.
      pose proof (Hsub i Hi) as Hc. apply catalogIds_cons in Hc.
      destruct Hc as [-> | Hc]; [contradiction | exact Hc].
Qed.

Lemma step_selection_in_catalog (photos : list Photo) (a : Action)
  (st : DashboardState) :
  cardEvent photos a -> selectedIds st ⊆ catalogIds photos ->
  selectedIds (step a st) ⊆ catalogIds photos.
Proof.
  destruct a; cbn [step selectedIds cardEvent]; intros Ha Hst; try exact Hst.
  - intros x Hx. apply elem_of_toggleSelection in Hx.
    destruct Hx as [[-> _] | [_ Hx]]; [exact Ha | now apply Hst].
  - intros x Hx. unfold clearSelections in Hx. now apply not_elem_of_empty in Hx.
Qed.

Lemma run_selection_in_catalog (photos : list Photo) (acts : list Action)
  (st : DashboardState) :
  List.Forall (cardEvent photos) acts -> selectedIds st ⊆ catalogIds photos ->
  selectedIds (run acts st) ⊆ catalogIds photos.
Proof.
  intros Hacts. revert st.
  induction Hacts as [| a acts Ha _ IH]; intros st Hst; [exact Hst |].
  cbn [run]. apply IH. now apply step_selection_in_catalog.
Qed.

(** X6.  On a catalog with distinct ids, after any sequence of events
    whose toggles come from cards of the catalog, the "Ready for
    delivery" counter ([selectedIds.size]) equals the number of photos
    in the shortlist. *)
Theorem selected_count_matches_shortlist (photos : list Photo)
  (acts : list Action) :
  List.NoDup (map id photos) ->
  List.Forall (cardEvent photos) acts ->
  length (shortlist photos (selectedIds (run acts initialState)))
  = size (selectedIds (run acts initialState)).
Proof.
  intros Hnd Hacts. apply shortlist_length_size; [exact Hnd |].
  apply run_selection_in_catalog; [exact Hacts |].
  intros x Hx. cbn in Hx. now apply not_elem_of_empty in Hx.
Qed.

Lemma selected_count_matches_shortlist_witness :
  let acts := [ToggleSelection "warm"; ToggleSelection "even";
               AdjustWeight KTechnical 50; ToggleSelection "warm"] in
  length (shortlist exampleCatalog (selectedIds (run acts initialState)))
  = size (selectedIds (run acts initialState)).
Proof.
  cbn zeta. apply selected_count_matches_shortlist.
  - repeat constructor; cbn; intuition discriminate.
  - assert (Hin : forall i, In i (map id exampleCatalog) ->
                            i ∈ catalogIds exampleCatalog)
      by (intros i; apply catalogIds_In).
    repeat constructor; cbn [cardEvent]; apply Hin; cbn; tauto.
Defined.

(* ================================================================== *)
(** * Filter chips and profile fields *)
(* ================================================================== *)

Lemma includes_In (l : list string) (x : string) :
  includes l x = true <-> In x l.
Proof.
  unfold includes. rewrite existsb_exists. split.
  - intros (y & Hy & Heq). apply String.eqb_eq in Heq. now subst.
  - intros Hx. exists x. split; [exact Hx | apply String.eqb_refl].
Qed.

Lemma includes_false (l : list string) (x : string) :
  includes l x = false <-> ~ In x l.
Proof.
  rewrite <- includes_In. destruct (includes l x); split; intros; try tauto; congruence.
Qed.

Lemma In_remove (l : list string) (v x : string) :
  In x (List.filter (fun y => negb (String.eqb y v)) l) <-> In x l /\ x <> v.
Proof.
  rewrite List.filter_In, negb_true_iff, String.eqb_neq. tauto.
Qed.

Lemma NoDup_remove_value (l : list string) (v : string) :
  List.NoDup l -> List.NoDup (List.filter (fun y => negb (String.eqb y v)) l).
Proof. apply List.NoDup_filter. Qed.

Lemma remove_absent (l : list string) (v : string) :
  ~ In v l -> List.filter (fun y => negb (String.eqb y v)) l = l.
Proof.
  induction l as [| x l IH]; intros Hv; [reflexivity |]. cbn [List.filter].
  destruct (String.eqb x v) eqn:E.
  - apply String.eqb_eq in E. subst. exfalso. apply Hv. now left.
  - cbn. f_equal. apply IH. intros H. apply Hv. now right.
Qed.

Lemma NoDup_snoc (l : list string) (v : string) :
  List.NoDup l -> ~ In v l -> List.NoDup (l ++ [v]).
Proof.
  intros Hl Hv. apply List.NoDup_app.
  - exact Hl.
  - repeat constructor. intros [].
  - intros x Hx [<- | []]. contradiction.
Qed.

Lemma toggleChip_In (v : string) (prev : list string) (x : string) :
  In x (toggleChip v prev) <-> (x = v /\ ~ In v prev) \/ (x <> v /\ In x prev).
Proof.
  unfold toggleChip. destruct (includes prev v) eqn:E.
  - apply includes_In in E. rewrite In_remove. tauto.
  - apply includes_false in E. rewrite in_app_iff. cbn.
    destruct (string_dec x v) as [-> | Hne]; intuition congruence.
Qed.

Lemma toggleChip_NoDup (v : string) (prev : list string) :
  List.NoDup prev -> List.NoDup (toggleChip v prev).
Proof.
  intros Hnd. unfold toggleChip. destruct (includes prev v) eqn:E.
  - now apply NoDup_remove_value.
  - apply includes_false in E. now apply NoDup_snoc.
Qed.

(** X7.  A chip toggle flips the membership of its value in the active
    list, leaves every other value as it was, and keeps a duplicate-free
    list duplicate-free. *)
Theorem toggleChip_flips (v : string) (prev : list string) :
  (In v (toggleChip v prev) <-> ~ In v prev) /\
  (forall x, x <> v -> (In x (toggleChip v prev) <-> In x prev)) /\
  (List.NoDup prev -> List.NoDup (toggleChip v prev)).
Proof.
  split; [| split].
  - rewrite toggleChip_In. tauto.
  - intros x Hx. rewrite toggleChip_In. tauto.
  - apply toggleChip_NoDup.
Qed.

Lemma toggleChip_flips_witness :
  In "Candid"%string (toggleChip "Candid" ["Portrait"]%string) /\
  In "Portrait"%string (toggleChip "Candid" ["Portrait"]%string) /\
  List.NoDup (toggleChip "Candid" ["Portrait"]%string).
Proof.
  destruct (toggleChip_flips "Candid" ["Portrait"]%string) as (Hv & Hx & Hnd).
  split; [| split].
  - apply Hv. intros [H | []]. discriminate H.
  - apply Hx; [discriminate | now left].
  - apply Hnd. repeat constructor. intros [].
Defined.

(** X8.  Toggling a chip twice restores the active list when it is
    duplicate-free and the value was off; when the value was on it comes
    back at the end of the list, the same values being active. *)
Theorem toggleChip_twice (v : string) (prev : list string) :
  List.NoDup prev ->
  (~ In v prev -> toggleChip v (toggleChip v prev) = prev) /\
  (In v prev ->
   toggleChip v (toggleChip v prev)
   = List.filter (fun item => negb (String.eqb item v)) prev ++ [v]) /\
  (forall x, In x (toggleChip v (toggleChip v prev)) <-> In x prev).
Proof.
  intros Hnd. split; [| split].
  - intros Hv. unfold toggleChip.
    rewrite (proj2 (includes_false prev v) Hv).
    assert (Hin : includes (prev ++ [v]) v = true)
      by (apply includes_In, in_or_app; right; now left).
    rewrite Hin, List.filter_app, (remove_absent prev v Hv).
    cbn. rewrite String.eqb_refl. cbn. apply app_nil_r.
  - intros Hv. unfold toggleChip.
    rewrite (proj2 (includes_In prev v) Hv).
    assert (Hout : includes (List.filter (fun item => negb (String.eqb item v)) prev) v
                   = false).
    { apply includes_false. rewrite In_remove. tauto. }
    now rewrite Hout.
  - intros x. rewrite !toggleChip_In.
    destruct (string_dec x v) as [-> | Hne];
      destruct (in_dec string_dec v prev); tauto.
Qed.

Lemma toggleChip_twice_witness :
  toggleChip "Candid" (toggleChip "Candid" ["Portrait"]%string) = ["Portrait"]%string.
Proof.
  refine (proj1 (toggleChip_twice "Candid" ["Portrait"]%string _) _).
  - repeat constructor. intros [].
  - intros [H | []]. discriminate H.
Defined.

Lemma dedupe_In (l : list string) (x : string) : In x (dedupe l) <-> In x l.
Proof.
  induction l as [| y l IH]; [reflexivity |]. cbn [dedupe In].
  rewrite In_remove, IH.
  destruct (string_dec x y) as [-> | Hne]; intuition congruence.
Qed.

Lemma dedupe_NoDup (l : list string) : List.NoDup (dedupe l).
Proof.
  induction l as [| y l IH]; cbn [dedupe]; constructor.
  - rewrite In_remove. tauto.
  - now apply NoDup_remove_value.
Qed.

Lemma toggleInSet_In (v : string) (current : list string) (x : string) :
  In x (toggleInSet v current)
  <-> (x = v /\ ~ In v current) \/ (x <> v /\ In x current).
Proof.
  unfold toggleInSet. destruct (includes (dedupe current) v) eqn:E.
  - apply includes_In in E. rewrite dedupe_In in E.
    rewrite In_remove, dedupe_In. tauto.
  - apply includes_false in E. rewrite dedupe_In in E.
    rewrite in_app_iff, dedupe_In. cbn.
    destruct (string_dec x v) as [-> | Hne]; intuition congruence.
Qed.

Lemma toggleInSet_NoDup (v : string) (current : list string) :
  List.NoDup (toggleInSet v current).
Proof.
  unfold toggleInSet. destruct (includes (dedupe current) v) eqn:E.
  - apply NoDup_remove_value, dedupe_NoDup.
  - apply includes_false in E. apply NoDup_snoc; [apply dedupe_NoDup | exact E].
Qed.

(** X9.  [toggleProfileField] on one of the three array keys flips the
    membership of the value in that field, leaves every other value of
    the field and every other field as they were, and always leaves the
    field duplicate-free; on [minimumFaces] it returns the profile
    unchanged. *)
Theorem toggleProfileField_flips (key : ProfileKey) (v : string)
  (prev : ClientProfile) :
  let next := toggleProfileField key v prev in
  (key <> KMinimumFaces ->
   (In v (profileField key next) <-> ~ In v (profileField key prev)) /\
   (forall x, x <> v ->
      (In x (profileField key next) <-> In x (profileField key prev))) /\
   List.NoDup (profileField key next)) /\
  (forall k, k <> key -> profileField k next = profileField k prev) /\
  minimumFaces next = minimumFaces prev /\
  toggleProfileField KMinimumFaces v prev = prev.
Proof.
  cbn zeta. split; [| split; [| split]].
  - intros Hkey.
    assert (Hfield : profileField key (toggleProfileField key v prev)
                     = toggleInSet v (profileField key prev))
      by (destruct key; [reflexivity | reflexivity | reflexivity | congruence]).
    rewrite Hfield. split; [| split].
    + rewrite toggleInSet_In. tauto.
    + intros x Hx. rewrite toggleInSet_In. tauto.
    + apply toggleInSet_NoDup.
  - intros k Hk. destruct key, k; try reflexivity; congruence.
  - destruct key; reflexivity.
  - reflexivity.
Qed.

Lemma toggleProfileField_flips_witness :
  ~ In "Joyful"%string
      (preferredMoods (toggleProfileField KPreferredMoods "Joyful" defaultProfile)) /\
  In "Romantic"%string
     (preferredMoods (toggleProfileField KPreferredMoods "Joyful" defaultProfile)).
Proof.
  destruct (toggleProfileField_flips KPreferredMoods "Joyful" defaultProfile)
    as (Hflip & _).
  destruct (Hflip ltac:(discriminate)) as (Hv & Hx & _).
  split.
  - intros H. apply Hv in H. apply H. left. reflexivity.
  - apply (Hx "Romantic"%string); [discriminate | right; left; reflexivity].
Defined.

Lemma step_lists_NoDup (a : Action) (st : DashboardState) :
  List.NoDup (activeShotTypes st) /\ List.NoDup (activeMoods st) /\
  List.NoDup (activeLocations st) /\ List.NoDup (preferredMoods (profile st)) /\
  List.NoDup (requiredShots (profile st)) /\
  List.NoDup (highlightTags (profile st)) ->
  List.NoDup (activeShotTypes (step a st)) /\ List.NoDup (activeMoods (step a st)) /\
  List.NoDup (activeLocations (step a st)) /\
  List.NoDup (preferredMoods (profile (step a st))) /\
  List.NoDup (requiredShots (profile (step a st))) /\
  List.NoDup (highlightTags (profile (step a st))).
Proof.
  intros (H1 & H2 & H3 & H4 & H5 & H6).
  destruct a as [k v | k v | n | v | v | v | q | b | i |]; cbn;
    try (repeat split; assumption);
    try (repeat split; try assumption; now apply toggleChip_NoDup).
  destruct k; cbn; repeat split; try assumption; apply toggleInSet_NoDup.
Qed.

(** X10.  In every state the user can reach, the three active chip
    lists and the three preference lists of the profile hold no value
    twice. *)
Theorem reachable_lists_NoDup (acts : list Action) :
  let st := run acts initialState in
  List.NoDup (activeShotTypes st) /\ List.NoDup (activeMoods st) /\
  List.NoDup (activeLocations st) /\ List.NoDup (preferredMoods (profile st)) /\
  List.NoDup (requiredShots (profile st)) /\
  List.NoDup (highlightTags (profile st)).
Proof.
  cbn zeta.
  assert (Hinit : List.NoDup (activeShotTypes initialState) /\
                  List.NoDup (activeMoods initialState) /\
                  List.NoDup (activeLocations initialState) /\
                  List.NoDup (preferredMoods (profile initialState)) /\
                  List.NoDup (requiredShots (profile initialState)) /\
                  List.NoDup (highlightTags (profile initialState))).
  { cbn. repeat split; repeat constructor; cbn; intuition discriminate. }
  revert Hinit. generalize initialState.
  induction acts as [| a acts IH]; intros st Hst; [exact Hst |].
  cbn [run]. apply IH. now apply step_lists_NoDup.
Qed.

(* ================================================================== *)
(** * More on the weights *)
(* ================================================================== *)

(** X11.  [adjustWeight] writes one slider: the key reads back the new
    value, the other two keys read what they did, a second write to the
    same key overrides the first, and writes to different keys commute. *)
Theorem adjustWeight_read_write (key k : WeightKey) (v v' : Q)
  (w : ScoringWeights) :
  weightOf key (adjustWeight key v w) = v /\
  (k <> key -> weightOf k (adjustWeight key v w) = weightOf k w) /\
  adjustWeight key v' (adjustWeight key v w) = adjustWeight key v' w /\
  (k <> key ->
   adjustWeight k v' (adjustWeight key v w)
   = adjustWeight key v (adjustWeight k v' w)).
Proof.
  repeat split; destruct key, k; try reflexivity; congruence.
Qed.

Lemma adjustWeight_read_write_witness :
  weightOf KStorytelling (adjustWeight KTechnical 50 defaultWeights) = 35 /\
  adjustWeight KStorytelling 20 (adjustWeight KTechnical 50 defaultWeights)
  = adjustWeight KTechnical 50 (adjustWeight KStorytelling 20 defaultWeights).
Proof.
  destruct (adjustWeight_read_write KTechnical KStorytelling 50 20 defaultWeights)
    as (_ & Hread & _ & Hcomm).
  split; [apply Hread | apply Hcomm]; discriminate.
Defined.



(* ================================================================== *)
(** * The filtered view *)
(* ================================================================== *)

Lemma keeps_decompose (st : DashboardState) (p : Photo) :
  keeps st p = passesChips st p && passesSearch st p.
Proof.
  unfold keeps, passesChips, passesSearch, searchableTexts.
  rewrite !existsb_app. cbn [existsb]. rewrite orb_false_r.
  destruct (showSelectedOnly st), (bool_decide (id p ∈ selectedIds st));
    cbn [negb andb orb]; try reflexivity;
    destruct (0 <? length (activeShotTypes st))%nat,
             (includes (activeShotTypes st) (shotType p));
    cbn [negb andb orb]; try reflexivity;
    destruct (0 <? length (activeMoods st))%nat,
             (includes (activeMoods st) (mood p));
    cbn [negb andb orb]; try reflexivity;
    destruct (0 <? length (activeLocations st))%nat,
             (includes (activeLocations st) (location p));
    cbn [negb andb orb]; try reflexivity;
    destruct (truthy (toLowerCase (trim (tagQuery st))));
    cbn [negb andb orb]; try reflexivity;
    destruct (existsb _ (tags p)), (existsb _ (clientNotes p)),
             (strIncludes (toLowerCase (title p)) _); reflexivity.
Qed.

Lemma filter_sublist {A : Type} (f : A -> bool) (l : list A) :
  List.filter f l `sublist_of` l.
Proof.
  induction l as [| x l IH]; cbn; [constructor |].
  destruct (f x); now constructor.
Qed.

Lemma filter_idem {A : Type} (f : A -> bool) (l : list A) :
  List.filter f (List.filter f l) = List.filter f l.
Proof.
  induction l as [| x l IH]; [reflexivity |]. cbn [List.filter].
  destruct (f x) eqn:E; [| exact IH]. cbn [List.filter]. now rewrite E, IH.
Qed.

(** X15.  Filtering only removes entries: the filtered view and the page
    of top candidates are sub-lists of the ranking, in ranking order, so
    the view is never longer than the ranking; and filtering the view
    again changes nothing. *)
Theorem filtered_sublist (st : DashboardState) (ranked : list RankedEntry) :
  filtered st ranked `sublist_of` ranked /\
  topCandidates st ranked `sublist_of` ranked /\
  (length (filtered st ranked) <= length ranked)%nat /\
  filtered st (filtered st ranked) = filtered st ranked.
Proof.
  assert (Hsub : filtered st ranked `sublist_of` ranked) by apply filter_sublist.
  split; [exact Hsub |]. split; [| split].
  - unfold topCandidates. etransitivity; [apply sublist_take | exact Hsub].
  - now apply sublist_length.
  - apply filter_idem.
Qed.

Lemma toFixed0_range (x : Q) : 0 <= x <= 100 -> (0 <= toFixed0 x <= 100)%Z.
Proof.
  intros [H0 H1]. unfold toFixed0.
  rewrite (proj2 (Qle_bool_iff 0 x) H0).
  split.
  - change 0%Z with (Qfloor (1 # 2)). apply Qfloor_resp_le. lra.
  - change 100%Z with (Qfloor (100 + (1 # 2))). apply Qfloor_resp_le. lra.
Qed.

Lemma ratio_unit (a b : nat) :
  (a <= b)%nat -> (0 < b)%nat ->
  0 <= inject_Z (Z.of_nat a) / inject_Z (Z.of_nat b) * 100 <= 100.
Proof.
  intros Hab Hb.
  assert (Hb' : 0 < inject_Z (Z.of_nat b)).
  { change 0 with (inject_Z 0). rewrite <- Zlt_Qlt. lia. }
  assert (Ha' : 0 <= inject_Z (Z.of_nat a)).
  { change 0 with (inject_Z 0). rewrite <- Zle_Qle. lia. }
  assert (Hab' : inject_Z (Z.of_nat a) <= inject_Z (Z.of_nat b)).
  { rewrite <- Zle_Qle. lia. }
  assert (Hq : 0 <= inject_Z (Z.of_nat a) / inject_Z (Z.of_nat b) <= 1).
  { split; [apply Qle_shift_div_l | apply Qle_shift_div_r]; lra. }
  lra.
Qed.

(** X16.  When the ranking has as many entries as the catalog, the
    "Coverage" badge of a non-empty catalog reads a whole percentage
    between 0 and 100; on an empty catalog it divides by zero and shows
    no number. *)
Theorem coverage_bounds (photos : list Photo) (st : DashboardState)
  (ranked : list RankedEntry) :
  length ranked = length photos ->
  (photos = [] -> coverageShown photos st ranked = None) /\
  (photos <> [] ->
   exists c, coverageShown photos st ranked = Some c /\ (0 <= c <= 100)%Z).
Proof.
  intros Hlen. split.
  - now intros ->.
  - intros Hne. unfold coverageShown.
    destruct (length photos) as [| n] eqn:E.
    { apply length_zero_iff_nil in E. congruence. }
    eexists. split; [reflexivity |].
    apply toFixed0_range. apply ratio_unit; [| lia].
    rewrite <- Hlen. unfold filtered. apply List.filter_length_le.
Qed.

Lemma coverage_bounds_witness :
  exists c, coverageShown exampleCatalog (step (ToggleMood "Joyful") initialState)
              (buildPhotoRankings sampleParams exampleCatalog exampleWeights plainProfile)
            = Some c /\ (0 <= c <= 100)%Z.
Proof.
  refine (proj2 (coverage_bounds exampleCatalog _ _ _) _).
  - vm_compute. reflexivity.
  - discriminate.
Defined.

Lemma filter_all {A : Type} (f : A -> bool) (l : list A) :
  (forall x, In x l -> f x = true) -> List.filter f l = l.
Proof.
  induction l as [| x l IH]; intros Hall; [reflexivity |]. cbn [List.filter].
  rewrite (Hall x (or_introl eq_refl)). f_equal. apply IH.
  intros y Hy. apply Hall. now right.
Qed.

(** X17.  With no chip active, "Show shortlist only" unchecked and a
    search box whose text [trim] leaves empty (nothing typed, or white
    space only, the no-break space and the other Unicode spaces
    included), the filtered view is the whole ranking and the hero is its
    first entry. *)
Theorem no_filter_shows_all (st : DashboardState) (ranked : list RankedEntry) :
  chipsOff st -> trim (tagQuery st) = EmptyString ->
  filtered st ranked = ranked /\ hero st ranked = hd_error ranked.
Proof.
  intros (Hshots & Hmoods & Hlocs & Hshow) Hblank.
  assert (Hview : filtered st ranked = ranked).
  { unfold filtered. apply filter_all. intros e _.
    rewrite keeps_decompose. unfold passesChips, passesSearch.
    rewrite Hshots, Hmoods, Hlocs, Hshow, Hblank.
    reflexivity. }
  split; [exact Hview |].
  unfold hero, topCandidates. rewrite Hview. now destruct ranked.
Qed.

Lemma no_filter_shows_all_witness :
  let st := step (SetTagQuery blankQuery) initialState in
  let ranked := buildPhotoRankings sampleParams exampleCatalog exampleWeights plainProfile in
  filtered st ranked = ranked.
Proof.
  cbn zeta.
  refine (proj1 (no_filter_shows_all (step (SetTagQuery blankQuery) initialState) _ _ _)).
  - repeat split; reflexivity.
  - vm_compute. reflexivity.
Defined.

(* ================================================================== *)
(** * The search box *)
(* ================================================================== *)

Lemma append_cons (c : ascii) (a b : string) :
  String.append (String c a) b = String c (String.append a b).
Proof. reflexivity. Qed.

Lemma prefix_append (sub b : string) : String.prefix sub (String.append sub b) = true.
Proof.
  induction sub as [| c sub IH]; [now destruct b |].
  rewrite append_cons. cbn [String.prefix].
  destruct (ascii_dec c c); [exact IH | congruence].
Qed.

Lemma strIncludes_here (s sub : string) :
  String.prefix sub s = true -> strIncludes s sub = true.
Proof. intros H. destruct s; cbn [strIncludes]; now rewrite H. Qed.

Lemma strIncludes_append (a sub b : string) :
  strIncludes (String.append a (String.append sub b)) sub = true.
Proof.
  induction a as [| c a IH].
  - change (String.append EmptyString (String.append sub b))
      with (String.append sub b).
    apply strIncludes_here, prefix_append.
  - rewrite append_cons. cbn [strIncludes]. rewrite IH. apply orb_true_r.
Qed.

Lemma append_assoc (a b c : string) :
  String.append (String.append a b) c = String.append a (String.append b c).
Proof.
  induction a as [| x a IH]; [reflexivity |]. now rewrite !append_cons, IH.
Qed.

Lemma stripPrefix_split (w s r : string) :
  stripPrefix w s = Some r -> s = String.append w r.
Proof.
  revert s. induction w as [| a w IH]; intros s H.
  - cbn in H. now injection H as ->.
  - destruct s as [| b s]; [discriminate H |]. cbn in H.
    destruct (Ascii.eqb a b) eqn:E; [| discriminate H].
    apply Ascii.eqb_eq in E. subst b. rewrite append_cons. f_equal. now apply IH.
Qed.

Lemma dropWhite_split (s r : string) :
  dropWhite s = Some r -> exists w, In w whiteSpaces /\ s = String.append w r.
Proof.
  unfold dropWhite. induction whiteSpaces as [| w ws IH]; cbn; [discriminate |].
  destruct (stripPrefix w s) as [r' |] eqn:E.
  - intros H. injection H as ->. exists w. split; [now left |].
    now apply stripPrefix_split.
  - intros H. destruct (IH H) as (w' & Hw' & Hs). exists w'.
    split; [now right | exact Hs].
Qed.

Lemma trimStartFuel_split (fuel : nat) (s : string) :
  exists a, s = String.append a (trimStartFuel fuel s).
Proof.
  revert s. induction fuel as [| fuel IH]; intros s; [now exists EmptyString |].
  cbn [trimStartFuel]. destruct (dropWhite s) as [r |] eqn:E; [| now exists EmptyString].
  apply dropWhite_split in E. destruct E as (w & _ & ->).
  destruct (IH r) as [a Ha]. exists (String.append w a).
  rewrite append_assoc. now rewrite <- Ha.
Qed.

Lemma trimStart_split (s : string) : exists a, s = String.append a (trimStart s).
Proof. apply trimStartFuel_split. Qed.

Lemma trimEnd_split (s : string) : exists b, s = String.append (trimEnd s) b.
Proof.
  induction s as [| c s [b IH]]; [now exists EmptyString |].
  cbn [trimEnd]. destruct (trimStart (String c s)).
  - now exists (String c s).
  - exists b. rewrite append_cons. f_equal. exact IH.
Qed.

Lemma trim_split (s : string) :
  exists a b, s = String.append a (String.append (trim s) b).
Proof.
  destruct (trimStart_split s) as [a Ha].
  destruct (trimEnd_split (trimStart s)) as [b Hb].
  exists a, b. unfold trim. now rewrite <- Hb.
Qed.

(** Dropping a white-space code point shortens the string. *)
Lemma dropWhite_shorter (s r : string) :
  dropWhite s = Some r -> (String.length r < String.length s)%nat.
Proof.
  intros H. apply dropWhite_split in H. destruct H as (w & Hw & ->).
  assert (Hlen : forall a b, String.length (String.append a b)
                             = (String.length a + String.length b)%nat).
  { intros a b. induction a as [| x a IH]; [reflexivity |].
    rewrite append_cons. cbn [String.length]. now rewrite IH. }
  rewrite Hlen.
  assert (Hpos : forallb (fun w => (0 <? String.length w)%nat) whiteSpaces = true)
    by (vm_compute; reflexivity).
  rewrite forallb_forall in Hpos. specialize (Hpos w Hw).
  apply Nat.ltb_lt in Hpos. lia.
Qed.

Lemma trimStartFuel_done (fuel : nat) (s : string) :
  (String.length s <= fuel)%nat -> dropWhite (trimStartFuel fuel s) = None.
Proof.
  revert s. induction fuel as [| fuel IH]; intros s Hlen.
  - destruct s; [reflexivity | cbn in Hlen; lia].
  - cbn [trimStartFuel]. destruct (dropWhite s) as [r |] eqn:E; [| exact E].
    apply IH. apply dropWhite_shorter in E. lia.
Qed.

(** The fuel of [trimStart] is enough: what it returns starts with no
    white space. *)
Lemma trimStart_done (s : string) : dropWhite (trimStart s) = None.
Proof. now apply trimStartFuel_done. Qed.

Lemma noLetter_eqb_lower (a b : ascii) :
  noLetter a = true -> Ascii.eqb a (lowerAscii b) = Ascii.eqb a b.
Proof.
  intros Ha. unfold lowerAscii.
  destruct ((65 <=? nat_of_ascii b)%nat && (nat_of_ascii b <=? 90)%nat) eqn:Hup;
    [| reflexivity].
  apply andb_prop in Hup. destruct Hup as [H1 H2].
  apply Nat.leb_le in H1, H2.
  unfold noLetter in Ha. apply negb_true_iff, orb_false_iff in Ha.
  destruct Ha as [Hu Hl].
  assert (E1 : Ascii.eqb a (ascii_of_nat (nat_of_ascii b + 32)) = false).
  { apply Ascii.eqb_neq. intros ->.
    rewrite nat_ascii_embedding in Hl by lia.
    apply andb_false_iff in Hl. rewrite !Nat.leb_gt in Hl. lia. }
  assert (E2 : Ascii.eqb a b = false).
  { apply Ascii.eqb_neq. intros ->.
    apply andb_false_iff in Hu. rewrite !Nat.leb_gt in Hu. lia. }
  now rewrite E1, E2.
Qed.

Lemma stripPrefix_lower (w s : string) :
  noLetters w = true ->
  stripPrefix w (toLowerCase s) = option_map toLowerCase (stripPrefix w s).
Proof.
  revert s. induction w as [| a w IH]; intros s Hw; [reflexivity |].
  cbn in Hw. apply andb_prop in Hw. destruct Hw as [Ha Hw].
  destruct s as [| b s]; [reflexivity |].
  cbn [toLowerCase stripPrefix]. rewrite (noLetter_eqb_lower a b Ha).
  destruct (Ascii.eqb a b); [now apply IH | reflexivity].
Qed.

Lemma whiteSpaces_noLetters : forallb noLetters whiteSpaces = true.
Proof. vm_compute. reflexivity. Qed.

Lemma dropWhite_lower (s : string) :
  dropWhite (toLowerCase s) = option_map toLowerCase (dropWhite s).
Proof.
  unfold dropWhite. pose proof whiteSpaces_noLetters as Hall.
  induction whiteSpaces as [| w ws IH]; [reflexivity |].
  cbn in Hall. apply andb_prop in Hall. destruct Hall as [Hw Hall].
  cbn [fold_right]. rewrite (stripPrefix_lower w s Hw).
  destruct (stripPrefix w s); [reflexivity | now apply IH].
Qed.

Lemma trimStartFuel_lower (fuel : nat) (s : string) :
  trimStartFuel fuel (toLowerCase s) = toLowerCase (trimStartFuel fuel s).
Proof.
  revert s. induction fuel as [| fuel IH]; intros s; [reflexivity |].
  cbn [trimStartFuel]. rewrite dropWhite_lower.
  destruct (dropWhite s) as [r |]; cbn [option_map]; [apply IH | reflexivity].
Qed.

Lemma length_toLowerCase (s : string) :
  String.length (toLowerCase s) = String.length s.
Proof. induction s as [| c s IH]; cbn; [reflexivity | now rewrite IH]. Qed.

Lemma toLowerCase_trimStart (s : string) :
  toLowerCase (trimStart s) = trimStart (toLowerCase s).
Proof.
  unfold trimStart. now rewrite length_toLowerCase, trimStartFuel_lower.
Qed.

Lemma toLowerCase_trimEnd (s : string) :
  toLowerCase (trimEnd s) = trimEnd (toLowerCase s).
Proof.
  induction s as [| c s IH]; [reflexivity |].
  cbn [trimEnd toLowerCase].
  change (String (lowerAscii c) (toLowerCase s)) with (toLowerCase (String c s)).
  rewrite <- toLowerCase_trimStart.
  destruct (trimStart (String c s)); [reflexivity |].
  cbn [toLowerCase]. now rewrite IH.
Qed.

Lemma toLowerCase_trim (s : string) : toLowerCase (trim s) = trim (toLowerCase s).
Proof. unfold trim. now rewrite toLowerCase_trimEnd, toLowerCase_trimStart. Qed.

(** X19.  Searching for one of a photo's own tags, client notes or its
    title never hides the photo: if the photo passes the filters with
    an empty search box, it still passes when the box holds that text,
    in any ASCII letter case. *)
Theorem search_finds_own_text (st : DashboardState) (p : Photo)
  (text q : string) :
  keeps (withQuery EmptyString st) p = true ->
  In text (searchableTexts p) ->
  toLowerCase q = toLowerCase text ->
  keeps (withQuery q st) p = true.
Proof.
  intros Hpass Htext Hcase.
  rewrite keeps_decompose in *. apply andb_prop in Hpass.
  destruct Hpass as [Hchips _].
  apply andb_true_intro. split; [exact Hchips |].
  unfold passesSearch. apply orb_true_iff. right.
  apply existsb_exists. exists text. split; [exact Htext |].
  cbn [withQuery step tagQuery].
  rewrite toLowerCase_trim, Hcase.
  destruct (trim_split (toLowerCase text)) as (a & b & Hsplit).
  rewrite Hsplit at 1. apply strIncludes_append.
Qed.

Lemma search_finds_own_text_witness :
  keeps (withQuery "ARCHIVE" initialState) warmFrame = true.
Proof.
  apply (search_finds_own_text initialState warmFrame "archive" "ARCHIVE").
  - reflexivity.
  - left. reflexivity.
  - reflexivity.
Defined.

(* ================================================================== *)
(** * The shortlist-only view *)
(* ================================================================== *)

Lemma Permutation_filter_bool {A : Type} (f : A -> bool) (l l' : list A) :
  Permutation l l' -> Permutation (List.filter f l) (List.filter f l').
Proof.
  induction 1 as [| x l l' _ IH | x y l | l l' l'' _ IH1 _ IH2]; cbn.
  - constructor.
  - destruct (f x); [now constructor | exact IH].
  - destruct (f x), (f y); try reflexivity. apply perm_swap.
  - now transitivity (List.filter f l').
Qed.

Lemma filter_map_photo (f : Photo -> bool) (l : list RankedEntry) :
  map photo (List.filter (fun e => f (photo e)) l) = List.filter f (map photo l).
Proof.
  induction l as [| e l IH]; [reflexivity |]. cbn.
  destruct (f (photo e)); cbn; now rewrite IH.
Qed.

(** X20.  When the ranking is a permutation of the catalog, no chip is
    active and [trim] leaves the text of the search box empty (nothing
    typed, or white space only, the Unicode spaces included), checking
    "Show shortlist only" shows exactly the photos of the shortlist: the
    photos of the view are a permutation of the shortlist. *)
Theorem shortlist_only_view (photos : list Photo) (st : DashboardState)
  (ranked : list RankedEntry) :
  Permutation (map photo ranked) photos ->
  chipsOff st -> trim (tagQuery st) = EmptyString ->
  Permutation (map photo (filtered (withShowSelectedOnly true st) ranked))
              (shortlist photos (selectedIds st)).
Proof.
  intros Hperm (Hshots & Hmoods & Hlocs & _) Hblank.
  unfold filtered, shortlist.
  rewrite (List.filter_ext (fun e => keeps (withShowSelectedOnly true st) (photo e))
             (fun e => bool_decide (id (photo e) ∈ selectedIds st))).
  - pose proof (filter_map_photo
                  (fun p => bool_decide (id p ∈ selectedIds st)) ranked) as Hmap.
    cbn beta in Hmap. rewrite Hmap.
    now apply Permutation_filter_bool.
  - intros e. rewrite keeps_decompose. unfold passesChips, passesSearch.
    cbn [withShowSelectedOnly step showSelectedOnly selectedIds activeShotTypes
         activeMoods activeLocations tagQuery].
    rewrite Hshots, Hmoods, Hlocs, Hblank. cbn.
    now rewrite !andb_true_r.
Qed.

Lemma shortlist_only_view_witness :
  let st := step (SetTagQuery blankQuery) (step (ToggleSelection "warm") initialState) in
  let ranked := buildPhotoRankings sampleParams exampleCatalog exampleWeights plainProfile in
  Permutation (map photo (filtered (withShowSelectedOnly true st) ranked))
              (shortlist exampleCatalog (selectedIds st)).
Proof.
  cbn zeta. apply shortlist_only_view.
  - apply ranking_photos.
  - repeat split; reflexivity.
  - vm_compute. reflexivity.
Defined.

(* ================================================================== *)
(** * Labels and percentages *)
(* ================================================================== *)

Lemma gtb_true (a b : Q) : gtb a b = true <-> b < a.
Proof.
  unfold gtb. rewrite negb_true_iff. split.
  - intros H. apply Qnot_le_lt. intros Hle. apply Qle_bool_iff in Hle. congruence.
  - intros H. destruct (Qle_bool a b) eqn:E; [| reflexivity].
    apply Qle_bool_iff in E. lra.
Qed.

Lemma gtb_false (a b : Q) : gtb a b = false <-> a <= b.
Proof.
  unfold gtb. rewrite negb_false_iff. apply Qle_bool_iff.
Qed.

(** X21.  The card label never goes down when the score goes up:
    of two scores, the higher one gets a label of the same or a higher
    tier (Hold, Consider, Strong pick, Hero candidate). *)
Theorem scoreToLabel_monotone (s1 s2 : Q) :
  s1 <= s2 ->
  (labelTier (scoreToLabel s1) <= labelTier (scoreToLabel s2))%nat.
Proof.
  intros Hle. unfold scoreToLabel.
  destruct (gtb s1 (86 # 100)) eqn:A1, (gtb s1 (72 # 100)) eqn:B1,
           (gtb s1 (6 # 10)) eqn:C1,
           (gtb s2 (86 # 100)) eqn:A2, (gtb s2 (72 # 100)) eqn:B2,
           (gtb s2 (6 # 10)) eqn:C2;
    cbn; try lia;
    repeat match goal with
           | H : gtb _ _ = true |- _ => apply gtb_true in H
           | H : gtb _ _ = false |- _ => apply gtb_false in H
           end; lra.
Qed.

Lemma scoreToLabel_monotone_witness :
  (labelTier (scoreToLabel (55 # 100)) <= labelTier (scoreToLabel (9 # 10)))%nat.
Proof. apply scoreToLabel_monotone. qcompute. Defined.

(** X22.  A card whose image is loaded with priority (score above 0.9)
    is always labelled "Hero candidate". *)
Theorem priority_is_hero_candidate (s : Q) :
  cardPriority s = true -> scoreToLabel s = "Hero candidate"%string.
Proof.
  unfold cardPriority, scoreToLabel. intros H. apply gtb_true in H.
  assert (H86 : gtb s (86 # 100) = true) by (apply gtb_true; lra).
  now rewrite H86.
Qed.

Lemma priority_is_hero_candidate_witness :
  scoreToLabel (95 # 100) = "Hero candidate"%string.
Proof. apply priority_is_hero_candidate. reflexivity. Defined.

(** X23.  [percentile] of a metric in [0,1] is a whole number between 0
    and 100, and it never decreases when the metric increases. *)
Theorem percentile_bounds (v v' : Q) :
  (0 <= v <= 1 -> (0 <= percentile v <= 100)%Z) /\
  (v <= v' -> (percentile v <= percentile v')%Z).
Proof.
  unfold percentile. split.
  - intros [H0 H1]. split.
    + apply (Z.le_trans _ (Qfloor (1 # 2))); [discriminate |].
      apply Qfloor_resp_le. lra.
    + apply (Z.le_trans _ (Qfloor (100 + (1 # 2)))); [| discriminate].
      apply Qfloor_resp_le. lra.
  - intros Hle. apply Qfloor_resp_le. lra.
Qed.

Lemma percentile_bounds_witness :
  (0 <= percentile (9 # 10) <= 100)%Z /\ (percentile (1 # 2) <= percentile (9 # 10))%Z.
Proof.
  split.
  - apply (proj1 (percentile_bounds (9 # 10) 1)). split; qcompute.
  - apply (proj2 (percentile_bounds (1 # 2) (9 # 10))). qcompute.
Defined.

Lemma sumQ_unit_bounds (l : list Q) :
  List.Forall (fun x => 0 <= x <= 1) l ->
  0 <= sumQ l <= inject_Z (Z.of_nat (length l)).
Proof.
  induction 1 as [| x l [Hx0 Hx1] _ [IH0 IH1]].
  - split; qcompute.
  - cbn [length]. rewrite Nat2Z.inj_succ, <- Z.add_1_r, inject_Z_plus.
    unfold sumQ in *. cbn [fold_right]. change (inject_Z 1) with 1. lra.
Qed.

Lemma scoreOr_unit (ranked : list RankedEntry) (d : Q) (p : Photo) :
  (forall e, In e ranked -> 0 <= score e <= 1) -> 0 <= d <= 1 ->
  0 <= scoreOr d (findEntry ranked p) <= 1.
Proof.
  intros Hall Hd. unfold findEntry.
  destruct (List.find _ ranked) as [e |] eqn:E; cbn [scoreOr]; [| exact Hd].
  apply Hall. now apply find_some in E.
Qed.

(** X24.  When every score of the ranking lies in [0,1], every
    percentage the dashboard prints lies between 0 and 100: the
    percentages on the top-candidate cards and on the shortlist cards,
    the hero confidence and the average alignment, whether or not every
    shortlisted photo has an entry. *)
Theorem percentages_in_range (photos : list Photo) (st : DashboardState)
  (ranked : list RankedEntry) :
  (forall e, In e ranked -> 0 <= score e <= 1) ->
  (forall e, In e (topCandidates st ranked) ->
     (0 <= cardPercent (score e) <= 100)%Z) /\
  (forall p s, In (p, s) (shortlistCards photos ranked (selectedIds st)) ->
     (0 <= cardPercent s <= 100)%Z) /\
  (0 <= heroConfidence st ranked <= 100)%Z /\
  (0 <= avgAlignmentShown photos ranked (selectedIds st) <= 100)%Z.
Proof.
  intros Hall.
  assert (Hpct : forall s, 0 <= s <= 1 -> (0 <= cardPercent s <= 100)%Z).
  { intros s Hs. unfold cardPercent. apply toFixed0_range. lra. }
  assert (Htop : forall e, In e (topCandidates st ranked) -> In e ranked).
  { intros e He. unfold topCandidates in He. apply firstn_In in He.
    unfold filtered in He. now apply List.filter_In in He. }
  split; [| split; [| split]].
  - intros e He. apply Hpct, Hall, Htop, He.
  - intros p s Hin. unfold shortlistCards in Hin. apply in_map_iff in Hin.
    destruct Hin as (q & Heq & _). injection Heq as _ <-.
    apply Hpct. unfold shortlistCardScore. apply scoreOr_unit; [exact Hall | lra].
  - unfold heroConfidence, hero.
    destruct (nth_error (topCandidates st ranked) 0) as [h |] eqn:E; [| lia].
    apply (Hpct (score h)), Hall, Htop. eapply nth_error_In. exact E.
  - unfold avgAlignmentShown, avgAlignmentPercent.
    destruct (length (shortlist photos (selectedIds st))) as [| n] eqn:E.
    { vm_compute. split; discriminate. }
    apply toFixed0_range.
    pose proof (sumQ_unit_bounds
                  (map (fun p => scoreOr 0 (findEntry ranked p))
                       (shortlist photos (selectedIds st)))) as Hsum.
    rewrite length_map, E in Hsum.
    rewrite alignmentSum_sumQ.
    destruct Hsum as [Hs0 Hs1].
    { apply List.Forall_forall. intros x Hx. apply in_map_iff in Hx.
      destruct Hx as (p & <- & _). apply scoreOr_unit; [exact Hall | lra]. }
    assert (Hn : 0 < inject_Z (Z.of_nat (S n))).
    { change 0 with (inject_Z 0). rewrite <- Zlt_Qlt. lia. }
    set (total := sumQ _) in *. set (len := inject_Z (Z.of_nat (S n))) in *.
    assert (Hq : 0 <= total / len <= 1).
    { split; [apply Qle_shift_div_l | apply Qle_shift_div_r]; lra. }
    lra.
Qed.

Lemma percentages_in_range_witness :
  let st := step (ToggleSelection "warm") initialState in
  let ranked := buildPhotoRankings sampleParams exampleCatalog exampleWeights plainProfile in
  (0 <= heroConfidence st ranked <= 100)%Z /\
  (0 <= avgAlignmentShown exampleCatalog ranked (selectedIds st) <= 100)%Z.
Proof.
  cbn zeta.
  refine (proj2 (proj2 (percentages_in_range exampleCatalog
                          (step (ToggleSelection "warm") initialState)
                          (buildPhotoRankings sampleParams exampleCatalog
                             exampleWeights plainProfile) _))).
  intros e He. apply ranking_entries in He. destruct He as (p & _ & ->).
  apply scorePhoto_range.
Defined.

(** X25.  Every shortlisted photo is accounted for below the summary:
    the first nine are shown as cards, in shortlist order, and the
    "+N more" line appears exactly when there are more than nine and
    counts the rest. *)
Theorem shortlist_cards_accounting (photos : list Photo)
  (ranked : list RankedEntry) (sel : gset string) :
  let n := length (shortlist photos sel) in
  let cards := shortlistCards photos ranked sel in
  map fst cards = firstn 9 (shortlist photos sel) /\
  length cards = Nat.min 9 n /\
  match shortlistOverflow photos sel with
  | Some k => (9 < n /\ length cards + k = n)%nat
  | None => length cards = n
  end.
Proof.
  cbn zeta. unfold shortlistCards, shortlistOverflow.
  rewrite map_map, length_map, length_firstn. cbn [fst].
  split; [apply map_id |]. split; [reflexivity |].
  destruct (9 <? length (shortlist photos sel))%nat eqn:E.
  - apply Nat.ltb_lt in E. lia.
  - apply Nat.ltb_ge in E. lia.
Qed.

Lemma filtered_nil (st : DashboardState) (ranked : list RankedEntry) :
  filtered st ranked = [] <-> forall e, In e ranked -> keeps st (photo e) = false.
Proof.
  unfold filtered. split.
  - intros Hnil e He. destruct (keeps st (photo e)) eqn:E; [| reflexivity].
    assert (Hin : In e (List.filter (fun e => keeps st (photo e)) ranked))
      by (apply List.filter_In; tauto).
    rewrite Hnil in Hin. contradiction.
  - apply filter_none.
Qed.

(** X26.  The hero is absent exactly when no entry of the ranking passes
    the filters, and a hero is always an entry of the ranking that
    passes them and heads the page of top candidates. *)
Theorem hero_passes_filters (st : DashboardState) (ranked : list RankedEntry) :
  (hero st ranked = None <->
   forall e, In e ranked -> keeps st (photo e) = false) /\
  (forall h, hero st ranked = Some h ->
     In h ranked /\ keeps st (photo h) = true /\
     hd_error (topCandidates st ranked) = Some h).
Proof.
  rewrite <- filtered_nil. unfold hero, topCandidates.
  destruct (filtered st ranked) as [| x view] eqn:E; cbn.
  - split; [tauto | intros h H; discriminate H].
  - split; [split; intros H; discriminate H |].
    intros h H. injection H as <-.
    assert (Hx : In x (filtered st ranked)) by (rewrite E; now left).
    unfold filtered in Hx. apply List.filter_In in Hx. tauto.
Qed.

Lemma hero_passes_filters_witness :
  hero (step (ToggleMood "Joyful") initialState)
       (buildPhotoRankings sampleParams exampleCatalog exampleWeights plainProfile)
  = None.
Proof.
  apply (proj1 (hero_passes_filters _ _)).
  intros e He. apply ranking_entries in He. destruct He as (p & Hp & ->).
  destruct Hp as [<- | [<- | [<- | []]]]; reflexivity.
Defined.
